(** * Test-content discovery (Sources/_TestingInternals/Discovery.cpp)

    A shallow embedding of the section locators and of the record walker of
    [swt_enumerateTestContent], together with the properties stated about
    them.

    Conventions.
    - Addresses, sizes and header fields are [Z]; every fixed-width
      operation of the C++ source has its wrap-around written out
      ([wrap], [as_field]).
    - Memory is a partial map from addresses to bytes; a load from an
      unmapped address is a [Fault].  Multi-byte loads are little-endian
      (every target the file supports is).
    - The caller's visitor is a state transformer: it receives the current
      value of [*stop] and its own state and returns the new value of
      [*stop] and the new state.
    - Loops that the source does not bound (the record walk) take fuel. *)

From Stdlib Require Import String Ascii ZArith List Sorted Bool Lia.
Import ListNotations.
Local Open Scope Z_scope.

Set Implicit Arguments.

(* ================================================================== *)
(** ** Build configuration *)

(** Width of pointers, [size_t] and [uintptr_t]. *)
Inductive DataModel : Type := ILP32 | LP64.

(** What the preprocessor sees: the data model, whether [__ELF__] is
    defined (the header is then [ElfW(Nhdr)], with unsigned 32-bit fields;
    otherwise the struct of Discovery.h, with [int32_t] fields), and
    whether the [#if DEBUG] assertions of [findSection] are compiled in. *)
Record Config : Type := {
  data_model : DataModel;
  ELF        : bool;
  DEBUG      : bool
}.

Section Machine.

Context (cfg : Config).

(** [sizeof(uintptr_t)], which is also [alignof(uintptr_t)] and
    [sizeof(size_t)]. *)
Definition sizeof_uintptr : Z :=
  match data_model cfg with ILP32 => 4 | LP64 => 8 end.

Definition word_bits : Z := 8 * sizeof_uintptr.

(** Reduction to [size_t] / [uintptr_t]. *)
Definition wrap (x : Z) : Z := x mod 2 ^ word_bits.

(** Reduction to [uint32_t] and to [int32_t]. *)
Definition wrap_u32 (x : Z) : Z := x mod 2 ^ 32.
Definition wrap_s32 (x : Z) : Z := (x + 2 ^ 31) mod 2 ^ 32 - 2 ^ 31.

(** Reduction to the type of [n_namesz] and [n_descsz]. *)
Definition as_field (x : Z) : Z :=
  if ELF cfg then wrap_u32 x else wrap_s32 x.

(** Largest value of that type. *)
Definition field_max : Z :=
  if ELF cfg then 2 ^ 32 - 1 else 2 ^ 31 - 1.

(** [sizeof(SWTTestContentHeader)]: three 32-bit integers. *)
Definition sizeof_header : Z := 12.

(** [alignof(uint32_t)]. *)
Definition alignof_uint32 : Z := 4.

(** [__builtin_align_up(x, align)] before the result is reduced to the
    type of [x]: [(x + (align - 1)) & ~(align - 1)]. *)
Definition builtin_align_up (x align : Z) : Z :=
  Z.land (x + (align - 1)) (Z.lnot (align - 1)).

(** [reinterpret_cast<uintptr_t>(p)]. *)
Definition to_uintptr (p : Z) : Z := wrap p.

End Machine.

(* ================================================================== *)
(** ** Outcomes and memory *)

Inductive outcome (A : Type) : Type :=
| Ok (a : A)
| Fault (addr : Z)      (* a load from an unmapped address *)
| AssertFailed          (* an [assert] of a DEBUG build failed *)
| OutOfFuel.

Arguments Ok {A} a.
Arguments Fault {A} addr.
Arguments AssertFailed {A}.
Arguments OutOfFuel {A}.

Definition bind {A B : Type} (m : outcome A) (k : A -> outcome B) : outcome B :=
  match m with
  | Ok a => k a
  | Fault p => Fault p
  | AssertFailed => AssertFailed
  | OutOfFuel => OutOfFuel
  end.

Notation "x <- m ;; k" := (bind m (fun x => k))
  (at level 61, m at next level, right associativity).
Notation "' pat <- m ;; k" := (bind m (fun x => match x with pat => k end))
  (at level 61, pat pattern, m at next level, right associativity).

(** Bytes are integers in [0, 256). *)
Definition Memory : Type := Z -> option Z.

Definition load8 (mem : Memory) (p : Z) : outcome Z :=
  match mem p with
  | Some b => Ok b
  | None => Fault p
  end.

(** Little-endian load of [n] bytes starting at [p]. *)
Fixpoint load_le (mem : Memory) (n : nat) (p : Z) : outcome Z :=
  match n with
  | O => Ok 0
  | S n' =>
      b <- load8 mem p ;;
      hi <- load_le mem n' (p + 1) ;;
      Ok (b + 256 * hi)
  end.

(** Value of a little-endian byte string. *)
Definition le_value (bs : list Z) : Z :=
  fold_right (fun b acc => b + 256 * acc) 0 bs.

(** The memory in which exactly the bytes [bs] are mapped, from [base] on. *)
Definition bytes_at (base : Z) (bs : list Z) : Memory :=
  fun p => if (base <=? p) && (p <? base + Z.of_nat (List.length bs))
           then nth_error bs (Z.to_nat (p - base)) else None.

(** [mem] with everything outside [lo, hi) unmapped. *)
Definition restrict (mem : Memory) (lo hi : Z) : Memory :=
  fun p => if (lo <=? p) && (p <? hi) then mem p else None.

(* ================================================================== *)
(** ** Section bounds and visitors *)

(** [struct SWTSectionBounds]; a null pointer is [0]. *)
Record SWTSectionBounds : Type := {
  imageAddress : Z;
  start        : Z;
  size         : Z
}.

(** [SWTTestContentEnumerator]: called as
    [body(imageAddress, header, stop, context)]. *)
Definition SWTTestContentEnumerator (St : Type) : Type :=
  Z -> Z -> bool -> Z -> St -> bool * St.

(** The [SectionEnumerator] template parameter: called as
    [body(sb, &stop)]. *)
Definition SectionEnumerator (St : Type) : Type :=
  SWTSectionBounds -> bool -> St -> outcome (bool * St).

(* ================================================================== *)
(** ** The record walker *)

Section Walker.

Context (cfg : Config) (mem : Memory).

(** [header->n_namesz] (offset 0) and [header->n_descsz] (offset 4). *)
Definition load_field (p : Z) : outcome Z :=
  raw <- load_le mem 4 p ;;
  Ok (as_field cfg raw).

Definition n_namesz (header : Z) : outcome Z := load_field header.
Definition n_descsz (header : Z) : outcome Z := load_field (header + 4).

(** The size computed by the [next] lambda from the two fields: the inner
    [__builtin_align_up] is done in the fields' type, the sum and the outer
    one in [size_t]. *)
Definition record_size (namesz descsz : Z) : Z :=
  let name_aligned := as_field cfg (builtin_align_up namesz alignof_uint32) in
  let sum := wrap cfg (wrap cfg (sizeof_header + wrap cfg name_aligned)
                       + wrap cfg descsz) in
  wrap cfg (builtin_align_up sum (sizeof_uintptr cfg)).

(** The [next] lambda. *)
Definition next (header : Z) : outcome Z :=
  namesz <- n_namesz header ;;
  descsz <- n_descsz header ;;
  Ok (wrap cfg (to_uintptr cfg header + record_size namesz descsz)).

Section Visit.

Context {St : Type} (context : Z) (body : SWTTestContentEnumerator St).

(** The [for] loop of the section lambda, one unit of fuel per test of its
    condition.  The flag [*stop] is handed to the visitor and is not
    consulted by the loop. *)
Fixpoint walk (fuel : nat) (image header end_ : Z) (stop : bool) (st : St)
  : outcome (bool * St) :=
  match fuel with
  | O => OutOfFuel
  | S fuel' =>
      if to_uintptr cfg header <? end_ then
        let '(stop', st') := body image header stop context st in
        header' <- next header ;;
        walk fuel' image header' end_ stop' st'
      else Ok (stop, st)
  end.

(** The lambda that [swt_enumerateTestContent] passes to
    [enumerateTestContentSections]. *)
Definition walkSection (fuel : nat) : SectionEnumerator St :=
  fun sb stop st =>
    let header := start sb in
    let end_ := wrap cfg (to_uintptr cfg (start sb) + size sb) in
    walk fuel (imageAddress sb) header end_ stop st.

End Visit.
End Walker.

(** The locators return [void]: the local [stop] is dropped at the end. *)
Definition discard_flag {St : Type} (r : outcome (bool * St)) : outcome St :=
  '(_, st) <- r ;; Ok st.

(* ================================================================== *)
(** ** The section loop shared by the Apple and Windows locators

    [bool stop = false; for (sb : list) { body(sb, &stop); if (stop) break; }] *)

Section SectionLoop.

Context {St : Type} (body : SectionEnumerator St).

Fixpoint forEachSection (sbs : list SWTSectionBounds) (stop : bool) (st : St)
  : outcome (bool * St) :=
  match sbs with
  | [] => Ok (stop, st)
  | sb :: rest =>
      '(stop', st') <- body sb stop st ;;
      if stop' then Ok (stop', st') else forEachSection rest stop' st'
  end.

End SectionLoop.

(* ================================================================== *)
(** ** Apple locator *)

Module Apple.

(** A section of a loaded Mach-O image: segment and section name, address
    of its data in memory, and size in bytes. *)
Record MachSection : Type := {
  segname   : string;
  sectname  : string;
  sect_addr : Z;
  sect_size : Z
}.

(** A loaded image as the load callback sees it: where its Mach header
    lives, the header's [flags] word, and its sections. *)
Record mach_header : Type := {
  mh_address  : Z;
  flags       : Z;
  mh_sections : list MachSection
}.

(** [getsectiondata(mhn, segname, sectname, &size)] of <mach-o/getsect.h>:
    the address and size of the first section with these names; when there
    is none the result is null and [size] keeps its initial value [0]. *)
Definition getsectiondata (mh : mach_header) (seg sect : string) : Z * Z :=
  match find (fun s => String.eqb (segname s) seg && String.eqb (sectname s) sect)
             (mh_sections mh) with
  | Some s => (sect_addr s, sect_size s)
  | None => (0, 0)
  end.

(** The function-local statics of [getTestContentSections], and the images
    the dynamic loader has loaded so far. *)
Record State : Type := {
  once          : bool;
  sectionBounds : list SWTSectionBounds;
  loaded        : list mach_header
}.

Definition initial : State :=
  {| once := false; sectionBounds := []; loaded := [] |}.

Section Locator.

(** [MH_DYLIB_IN_CACHE] of <mach-o/loader.h>. *)
Variable MH_DYLIB_IN_CACHE : Z.

(** The lambda handed to [objc_addLoadImageFunc], acting on the shared
    list (the lock it takes serialises the appends). *)
Definition loadImageFunc (mh : mach_header) (cache : list SWTSectionBounds)
  : list SWTSectionBounds :=
  if negb (Z.land (flags mh) MH_DYLIB_IN_CACHE =? 0) then cache
  else
    let '(start, size) := getsectiondata mh "__DATA_CONST" "__swift5_tests" in
    if negb (start =? 0) && (0 <? size)
    then cache ++ [{| imageAddress := mh_address mh; start := start; size := size |}]
    else cache.

(** What is recorded about an image that is outside the shared cache and
    has a non-empty test-content section. *)
Definition qualifies (images : list mach_header) (sb : SWTSectionBounds) : Prop :=
  0 < size sb /\
  start sb <> 0 /\
  exists mh,
    In mh images /\
    imageAddress sb = mh_address mh /\
    Z.land (flags mh) MH_DYLIB_IN_CACHE = 0 /\
    getsectiondata mh "__DATA_CONST" "__swift5_tests" = (start sb, size sb).

(** The loader maps a new image; the hook, once installed, runs on it. *)
Definition dyld_load (mh : mach_header) (s : State) : State :=
  {| once := once s;
     sectionBounds :=
       if once s then loadImageFunc mh (sectionBounds s) else sectionBounds s;
     loaded := loaded s ++ [mh] |}.

(** [getTestContentSections]: the first call creates the list and installs
    the hook ([objc_addLoadImageFunc] calls it at once for every image
    already loaded); every call returns a copy of the list. *)
Definition getTestContentSections (s : State) : list SWTSectionBounds * State :=
  let s' :=
    if once s then s
    else {| once := true;
            sectionBounds := fold_left (fun c mh => loadImageFunc mh c) (loaded s) [];
            loaded := loaded s |} in
  (sectionBounds s', s').

Definition enumerateTestContentSections {St : Type}
    (body : SectionEnumerator St) (s : State) (st : St) : outcome St * State :=
  let '(sbs, s') := getTestContentSections s in
  (discard_flag (forEachSection body sbs false st), s').

(** What happens to the process, as far as the locator is concerned. *)
Inductive event : Type :=
| ImageLoaded (mh : mach_header)
| SectionsRequested.

(** Run a sequence of events; the snapshots handed out are collected. *)
Fixpoint run (evs : list event) (s : State)
  : State * list (list SWTSectionBounds) :=
  match evs with
  | [] => (s, [])
  | ImageLoaded mh :: rest => run rest (dyld_load mh s)
  | SectionsRequested :: rest =>
      let '(snapshot, s') := getTestContentSections s in
      let '(s'', snapshots) := run rest s' in
      (s'', snapshot :: snapshots)
  end.

End Locator.
End Apple.

(* ================================================================== *)
(** ** Windows locator *)

Module Windows.

(** [IMAGE_SECTION_HEADER], the fields that are read; [Name] holds the
    eight bytes of the name field. *)
Record IMAGE_SECTION_HEADER : Type := {
  Name           : list Z;
  VirtualAddress : Z;
  VirtualSize    : Z;
  SizeOfRawData  : Z
}.

(** What a module handle points to: the DOS header's [e_magic] and
    [e_lfanew], the NT header's [Signature], and the first
    [FileHeader.NumberOfSections] entries of the section table. *)
Record Module : Type := {
  hModule   : Z;
  e_magic   : Z;
  e_lfanew  : Z;
  Signature : Z;
  sections  : list IMAGE_SECTION_HEADER
}.

(** [strncmp] on byte strings; the end of a list stands for the
    terminating NUL.  The sign of the result is that of the first
    difference. *)
Fixpoint strncmp (s1 s2 : list Z) (n : nat) : Z :=
  match n with
  | O => 0
  | S n' =>
      let c1 := hd 0 s1 in
      let c2 := hd 0 s2 in
      if negb (c1 =? c2) then c1 - c2
      else if c1 =? 0 then 0
      else strncmp (tl s1) (tl s2) n'
  end.

(** The bytes of a string literal. *)
Definition c_str (s : string) : list Z :=
  map (fun c => Z.of_N (N_of_ascii c)) (list_ascii_of_string s).

Section Locator.

Context (cfg : Config) (mem : Memory).

(** Constants of <winnt.h>. *)
Variables (IMAGE_DOS_SIGNATURE IMAGE_NT_SIGNATURE : Z)
          (IMAGE_SIZEOF_SHORT_NAME : nat).

(** The [#if DEBUG] block of [findSection]. *)
Definition debug_asserts (start size : Z) : outcome unit :=
  if negb (DEBUG cfg) then Ok tt
  else if negb (2 * sizeof_uintptr cfg <=? size) then AssertFailed
  else
    firstPointerValue <- load_le mem (Z.to_nat (sizeof_uintptr cfg)) start ;;
    if negb (firstPointerValue =? 0) then AssertFailed
    else
      lastPointerValue <-
        load_le mem (Z.to_nat (sizeof_uintptr cfg))
                (wrap cfg (wrap cfg (start + size) - sizeof_uintptr cfg)) ;;
      if negb (lastPointerValue =? 0) then AssertFailed
      else Ok tt.

(** Where a section of the module at [h] starts, and the size
    [std::min(VirtualSize, SizeOfRawData)] it is taken to have. *)
Definition section_start (h : Z) (section : IMAGE_SECTION_HEADER) : Z :=
  wrap cfg (to_uintptr cfg h + VirtualAddress section).

Definition candidate_size (section : IMAGE_SECTION_HEADER) : Z :=
  Z.min (VirtualSize section) (SizeOfRawData section).

(** The loop of [findSection] over the section table. *)
Fixpoint scanSections (h : Z) (sectionName : list Z)
    (table : list IMAGE_SECTION_HEADER) : outcome (option SWTSectionBounds) :=
  match table with
  | [] => Ok None
  | section :: rest =>
      if VirtualAddress section =? 0 then scanSections h sectionName rest
      else
        let start := section_start h section in
        let size := candidate_size section in
        if negb (start =? 0) && (0 <? size) then
          if strncmp sectionName (Name section) IMAGE_SIZEOF_SHORT_NAME =? 0 then
            _ <- debug_asserts start size ;;
            if 2 * sizeof_uintptr cfg <? size then
              Ok (Some {| imageAddress := h;
                          start := wrap cfg (start + sizeof_uintptr cfg);
                          size := wrap cfg (size - 2 * sizeof_uintptr cfg) |})
            else scanSections h sectionName rest
          else scanSections h sectionName rest
        else scanSections h sectionName rest
  end.

Definition findSection (m : Module) (sectionName : list Z)
  : outcome (option SWTSectionBounds) :=
  if hModule m =? 0 then Ok None
  else if negb (e_magic m =? IMAGE_DOS_SIGNATURE) || (e_lfanew m <=? 0) then Ok None
  else
    let ntHeader := wrap cfg (to_uintptr cfg (hModule m) + wrap cfg (e_lfanew m)) in
    if (ntHeader =? 0) || negb (Signature m =? IMAGE_NT_SIGNATURE) then Ok None
    else scanSections (hModule m) sectionName (sections m).

(** The checks of [findSection] that precede the section table all pass. *)
Definition valid_headers (m : Module) : Prop :=
  hModule m <> 0 /\
  e_magic m = IMAGE_DOS_SIGNATURE /\
  0 < e_lfanew m /\
  wrap cfg (to_uintptr cfg (hModule m) + wrap cfg (e_lfanew m)) <> 0 /\
  Signature m = IMAGE_NT_SIGNATURE.

(** A value of type [DWORD]. *)
Definition dword (x : Z) : Prop := 0 <= x < 2 ^ 32.

(** The current process: the modules [EnumProcessModules] would report, in
    its order, or [None] when the call fails. *)
Definition Process : Type := option (list Module).

(** The first loop of [enumerateTestContentSections]: the side table. *)
Fixpoint collectSections (hModules : list Module)
  : outcome (list SWTSectionBounds) :=
  match hModules with
  | [] => Ok []
  | m :: rest =>
      found <- findSection m (c_str ".sw5test") ;;
      others <- collectSections rest ;;
      Ok (match found with Some sb => sb :: others | None => others end)
  end.

Definition enumerateTestContentSections {St : Type}
    (body : SectionEnumerator St) (p : Process) (st : St) : outcome St :=
  match p with
  | None => Ok st
  | Some modules =>
      (* [std::array<HMODULE, 1024>] and [hModuleCount] *)
      let hModules := firstn 1024 modules in
      sectionBounds <- collectSections hModules ;;
      discard_flag (forEachSection body sectionBounds false st)
  end.

End Locator.
End Windows.

(* ================================================================== *)
(** ** ELF locator *)

Module Elf.

(** [ElfW(Phdr)], the fields that are read. *)
Record Phdr : Type := {
  p_type  : Z;
  p_vaddr : Z;
  p_memsz : Z
}.

(** [struct dl_phdr_info]; [dlpi_phnum] is the length of [dlpi_phdr]. *)
Record dl_phdr_info : Type := {
  dlpi_addr : Z;
  dlpi_phdr : list Phdr
}.

(** [dl_iterate_phdr(callback, data)] of <link.h>: the callback is called
    for each loaded object until one call returns non-zero; that value is
    returned. *)
Fixpoint dl_iterate_phdr {St : Type}
    (callback : dl_phdr_info -> St -> outcome (bool * St))
    (objects : list dl_phdr_info) (st : St) : outcome (bool * St) :=
  match objects with
  | [] => Ok (false, st)
  | info :: rest =>
      '(ret, st') <- callback info st ;;
      if ret then Ok (ret, st') else dl_iterate_phdr callback rest st'
  end.

Section Locator.

Context (cfg : Config).

(** [PT_NOTE] of <elf.h>. *)
Variable PT_NOTE : Z.

(** The bounds built from one program header. *)
Definition bounds_of (info : dl_phdr_info) (phdr : Phdr) : SWTSectionBounds :=
  {| imageAddress := dlpi_addr info;
     start := wrap cfg (dlpi_addr info + p_vaddr phdr);
     size := wrap cfg (p_memsz phdr) |}.

Section Callback.

Context {St : Type} (body : SectionEnumerator St).

(** [for (size_t i = 0; !stop && i < info->dlpi_phnum; i++)] *)
Fixpoint phdr_loop (info : dl_phdr_info) (phdrs : list Phdr)
    (stop : bool) (st : St) : outcome (bool * St) :=
  if stop then Ok (stop, st)
  else
    match phdrs with
    | [] => Ok (stop, st)
    | phdr :: rest =>
        '(stop', st') <-
          (if p_type phdr =? PT_NOTE
           then body (bounds_of info phdr) stop st
           else Ok (stop, st)) ;;
        phdr_loop info rest stop' st'
    end.

(** The lambda handed to [dl_iterate_phdr]; it returns [stop]. *)
Definition callback (info : dl_phdr_info) (st : St) : outcome (bool * St) :=
  phdr_loop info (dlpi_phdr info) false st.

Definition enumerateTestContentSections
    (objects : list dl_phdr_info) (st : St) : outcome St :=
  discard_flag (dl_iterate_phdr callback objects st).

End Callback.

(** The bounds of every note segment of every loaded object, in the order
    of iteration. *)
Definition note_segments (objects : list dl_phdr_info) : list SWTSectionBounds :=
  flat_map (fun info =>
              map (bounds_of info)
                  (filter (fun phdr => p_type phdr =? PT_NOTE) (dlpi_phdr info)))
           objects.

End Locator.
End Elf.

(* ================================================================== *)
(** ** The public entry point *)

(** The platform the file is compiled for, with what the locator of that
    platform finds in the process. *)
Inductive Platform : Type :=
| OnApple (MH_DYLIB_IN_CACHE : Z) (s : Apple.State)
| OnWindows (IMAGE_DOS_SIGNATURE IMAGE_NT_SIGNATURE : Z)
            (IMAGE_SIZEOF_SHORT_NAME : nat) (p : Windows.Process)
| OnElf (PT_NOTE : Z) (objects : list Elf.dl_phdr_info)
| Unsupported.

Section EntryPoint.

Context (cfg : Config) (mem : Memory).

(** [enumerateTestContentSections] of the dynamically linked builds.  Only
    the Apple locator keeps state between calls. *)
Definition enumerateTestContentSections {St : Type}
    (pf : Platform) (body : SectionEnumerator St) (st : St)
  : outcome St * Platform :=
  match pf with
  | OnApple in_cache s =>
      let '(r, s') := Apple.enumerateTestContentSections in_cache body s st in
      (r, OnApple in_cache s')
  | OnWindows dos nt n p =>
      (Windows.enumerateTestContentSections cfg mem dos nt n body p st, pf)
  | OnElf note objects =>
      (Elf.enumerateTestContentSections cfg note body objects st, pf)
  | Unsupported => (Ok st, pf)
  end.

(** The sections the locator of the platform comes up with. *)
Definition located_sections (pf : Platform) : outcome (list SWTSectionBounds) :=
  match pf with
  | OnApple in_cache s => Ok (fst (Apple.getTestContentSections in_cache s))
  | OnWindows dos nt n None => Ok []
  | OnWindows dos nt n (Some modules) =>
      Windows.collectSections cfg mem dos nt n (firstn 1024 modules)
  | OnElf note objects => Ok (Elf.note_segments cfg note objects)
  | Unsupported => Ok []
  end.

(** [swt_enumerateTestContent(context, body)]. *)
Definition swt_enumerateTestContent {St : Type} (fuel : nat)
    (pf : Platform) (context : Z) (body : SWTTestContentEnumerator St) (st : St)
  : outcome St * Platform :=
  enumerateTestContentSections pf (walkSection cfg mem context body fuel) st.

End EntryPoint.

(* ================================================================== *)
(** ** Instrumentation: the calls a visitor receives *)

(** One call of the visitor: image address and header address. *)
Definition Call : Type := (Z * Z)%type.

(** [body], with every call appended to a log kept beside its state. *)
Definition logged {St : Type} (body : SWTTestContentEnumerator St)
  : SWTTestContentEnumerator (list Call * St) :=
  fun image header stop context '(log, st) =>
    let '(stop', st') := body image header stop context st in
    (stop', (log ++ [(image, header)], st')).

(** A visitor that never touches [*stop]. *)
Definition never_stops {St : Type} (body : SWTTestContentEnumerator St) : Prop :=
  forall image header stop context st,
    fst (body image header stop context st) = stop.

(** The section-level counterpart of [logged]: it records the bounds it is
    given and leaves [*stop] alone. *)
Definition record_bounds : SectionEnumerator (list SWTSectionBounds) :=
  fun sb stop log => Ok (stop, log ++ [sb]).

(* ================================================================== *)
(** ** Record framing as the specification words it

    A record is a prefix of three 32-bit integers (name size, description
    size, type tag), the name padded to 4-byte alignment, the description,
    and padding of the whole record to pointer-size alignment. *)

Module Framing.

(** [alignUp] over the unbounded integers. *)
Definition alignUp (n k : Z) : Z := (n + k - 1) / k * k.

Definition headerSize : Z := 12.

Section Layout.

Context (cfg : Config).

Definition pointerSize : Z := sizeof_uintptr cfg.

(** Bytes from one header to the next, for name size [a] and
    description size [b]. *)
Definition framedSize (a b : Z) : Z :=
  alignUp (headerSize + alignUp a 4 + b) pointerSize.

(** A record before encoding. *)
Record TestContentRecord : Type := {
  rec_type : Z;
  rec_name : list Z;
  rec_desc : list Z
}.

Definition name_size (r : TestContentRecord) : Z := Z.of_nat (List.length (rec_name r)).
Definition desc_size (r : TestContentRecord) : Z := Z.of_nat (List.length (rec_desc r)).

(** [n] little-endian bytes of [x]. *)
Fixpoint le_bytes (n : nat) (x : Z) : list Z :=
  match n with
  | O => []
  | S n' => x mod 256 :: le_bytes n' (x / 256)
  end.

(** Zero bytes that bring a length [len] up to a multiple of [k]. *)
Definition padding (len k : Z) : list Z :=
  repeat 0 (Z.to_nat (alignUp len k - len)).

Definition encode_record (r : TestContentRecord) : list Z :=
  let unpadded :=
    le_bytes 4 (name_size r) ++ le_bytes 4 (desc_size r) ++ le_bytes 4 (rec_type r)
    ++ rec_name r ++ padding (name_size r) 4 ++ rec_desc r in
  unpadded ++ padding (Z.of_nat (List.length unpadded)) pointerSize.

(** A section: records back to back. *)
Definition encode_section (rs : list TestContentRecord) : list Z :=
  concat (map encode_record rs).

(** Where the headers of back-to-back records lie, from [p] on. *)
Fixpoint header_addresses (p : Z) (rs : list TestContentRecord) : list Z :=
  match rs with
  | [] => []
  | r :: rest => p :: header_addresses (p + framedSize (name_size r) (desc_size r)) rest
  end.

(** Both sizes fit the header's fields, the name's also after alignment. *)
Definition well_formed (r : TestContentRecord) : Prop :=
  name_size r + 3 <= field_max cfg /\ desc_size r <= field_max cfg.

End Layout.
End Framing.

(** [mem] holds the bytes [bs] from address [p] on. *)
Definition contains (mem : Memory) (p : Z) (bs : list Z) : Prop :=
  forall i, (i < List.length bs)%nat -> mem (p + Z.of_nat i) = nth_error bs i.


(** What one result of [findSection] adds to the side table of the
    Windows locator. *)
Definition found (r : outcome (option SWTSectionBounds)) : list SWTSectionBounds :=
  match r with
  | Ok (Some sb) => [sb]
  | _ => []
  end.


(** The headers on which the loop of the section lambda runs its body
    within [fuel] tests of its condition, however the walk goes on after
    them (to the end, into a fault, or without end). *)
Fixpoint headers_called (cfg : Config) (mem : Memory) (fuel : nat)
    (header end_ : Z) : list Z :=
  match fuel with
  | O => []
  | S fuel' =>
      if to_uintptr cfg header <? end_ then
        header :: match next cfg mem header with
                  | Ok header' => headers_called cfg mem fuel' header' end_
                  | _ => []
                  end
      else []
  end.

(** The effect of calling [body] on each header of [hs] in turn. *)
Definition visit_all {St : Type} (body : SWTTestContentEnumerator St)
    (image context : Z) (hs : list Z) (acc : bool * St) : bool * St :=
  fold_left (fun '(stop, st) h => body image h stop context st) hs acc.

(* ================================================================== *)
(** ** Concrete configurations and inputs *)

Module Examples.

Import Framing.

(** 64-bit, non-ELF targets (Darwin, 64-bit Windows), release and debug. *)
Definition lp64 : Config := {| data_model := LP64; ELF := false; DEBUG := false |}.
Definition lp64_debug : Config := {| data_model := LP64; ELF := false; DEBUG := true |}.

(** 32-bit, non-ELF targets (32-bit Windows, WebAssembly). *)
Definition ilp32 : Config := {| data_model := ILP32; ELF := false; DEBUG := false |}.

(** 64-bit ELF targets. *)
Definition lp64_elf : Config := {| data_model := LP64; ELF := true; DEBUG := false |}.

(** Two records: a 3-byte name with a 5-byte description (24 bytes once
    framed), and an empty one (16 bytes). *)
Definition first_record : TestContentRecord :=
  {| rec_type := 1; rec_name := [65; 66; 67]; rec_desc := [1; 2; 3; 4; 5] |}.
Definition second_record : TestContentRecord :=
  {| rec_type := 2; rec_name := []; rec_desc := [] |}.
Definition two_records : list TestContentRecord := [first_record; second_record].

Definition two_record_memory : Memory :=
  bytes_at 4096 (encode_section lp64 two_records).
Definition two_record_bounds : SWTSectionBounds :=
  {| imageAddress := 256; start := 4096; size := 40 |}.

Definition one_record_memory : Memory :=
  bytes_at 4096 (encode_record lp64 first_record).

(** The two-record section at 4096 and a one-record section at 8192. *)
Definition two_section_memory : Memory :=
  fun p =>
    match two_record_memory p with
    | Some b => Some b
    | None => bytes_at 8192 (encode_section lp64 [second_record]) p
    end.

(** A header at [2^32] whose name size is [INT32_MAX]. *)
Definition huge_name_header : Memory :=
  bytes_at (2 ^ 32) [255; 255; 255; 127; 0; 0; 0; 0; 0; 0; 0; 0].

Definition zero_memory : Memory := fun _ => Some 0.
Definition unmapped_memory : Memory := fun _ => None.

(** Visitors that count their calls: one leaves [*stop] alone, the other
    sets it on its first call and leaves it alone afterwards. *)
Definition count_calls : SWTTestContentEnumerator nat :=
  fun _ _ stop _ n => (stop, S n).
Definition stop_on_first_call : SWTTestContentEnumerator nat :=
  fun _ _ stop _ n => (match n with O => true | S _ => stop end, S n).

(** Mach-O images: one with the two-record section, one with the
    one-record section, one inside the shared cache. *)
Definition MH_DYLIB_IN_CACHE : Z := 2 ^ 31.

Definition tests_image : Apple.mach_header :=
  {| Apple.mh_address := 256;
     Apple.flags := 0;
     Apple.mh_sections :=
       [{| Apple.segname := "__TEXT"; Apple.sectname := "__text";
           Apple.sect_addr := 1024; Apple.sect_size := 512 |};
        {| Apple.segname := "__DATA_CONST"; Apple.sectname := "__swift5_tests";
           Apple.sect_addr := 4096; Apple.sect_size := 40 |}] |}.

Definition more_tests_image : Apple.mach_header :=
  {| Apple.mh_address := 512;
     Apple.flags := 0;
     Apple.mh_sections :=
       [{| Apple.segname := "__DATA_CONST"; Apple.sectname := "__swift5_tests";
           Apple.sect_addr := 8192; Apple.sect_size := 16 |}] |}.

Definition system_image : Apple.mach_header :=
  {| Apple.mh_address := 768;
     Apple.flags := 2 ^ 31 + 4;
     Apple.mh_sections :=
       [{| Apple.segname := "__DATA_CONST"; Apple.sectname := "__swift5_tests";
           Apple.sect_addr := 12288; Apple.sect_size := 16 |}] |}.

Definition two_images_loaded : Apple.State :=
  Apple.dyld_load MH_DYLIB_IN_CACHE more_tests_image
    (Apple.dyld_load MH_DYLIB_IN_CACHE tests_image Apple.initial).

(** PE modules: one with a [.sw5test] section of 2 * 8 + 40 bytes, one
    with a wrong DOS magic. *)
Definition IMAGE_DOS_SIGNATURE : Z := 23117.   (* 0x5A4D *)
Definition IMAGE_NT_SIGNATURE : Z := 17744.    (* 0x00004550 *)
Definition IMAGE_SIZEOF_SHORT_NAME : nat := 8.

Definition text_section : Windows.IMAGE_SECTION_HEADER :=
  {| Windows.Name := Windows.c_str ".text" ++ [0; 0; 0];
     Windows.VirtualAddress := 4096;
     Windows.VirtualSize := 100;
     Windows.SizeOfRawData := 512 |}.

Definition sw5test_section : Windows.IMAGE_SECTION_HEADER :=
  {| Windows.Name := Windows.c_str ".sw5test";
     Windows.VirtualAddress := 8192;
     Windows.VirtualSize := 56;
     Windows.SizeOfRawData := 512 |}.

Definition tiny_sw5test_section : Windows.IMAGE_SECTION_HEADER :=
  {| Windows.Name := Windows.c_str ".sw5test";
     Windows.VirtualAddress := 8192;
     Windows.VirtualSize := 16;
     Windows.SizeOfRawData := 512 |}.

Definition swift_module : Windows.Module :=
  {| Windows.hModule := 65536;
     Windows.e_magic := 23117;
     Windows.e_lfanew := 128;
     Windows.Signature := 17744;
     Windows.sections := [text_section; sw5test_section] |}.

Definition tiny_module : Windows.Module :=
  {| Windows.hModule := 65536;
     Windows.e_magic := 23117;
     Windows.e_lfanew := 128;
     Windows.Signature := 17744;
     Windows.sections := [text_section; tiny_sw5test_section] |}.

Definition broken_module : Windows.Module :=
  {| Windows.hModule := 131072;
     Windows.e_magic := 0;
     Windows.e_lfanew := 128;
     Windows.Signature := 17744;
     Windows.sections := [sw5test_section] |}.

(** An ELF object with a load segment and nothing else. *)
Definition PT_NOTE : Z := 4.

Definition plain_object : Elf.dl_phdr_info :=
  {| Elf.dlpi_addr := 65536;
     Elf.dlpi_phdr := [{| Elf.p_type := 1; Elf.p_vaddr := 0; Elf.p_memsz := 4096 |}] |}.

End Examples.

(* ================================================================== *)
(** ** Observations used to state further properties *)

(** The calls logged by a run, or the way the run failed. *)
Definition calls_of {St : Type} (r : outcome (bool * (list Call * St)))
  : outcome (list Call) :=
  '(_, (log, _)) <- r ;; Ok log.

(** What the Apple load hook records for one image on its own: nothing or
    one entry. *)
Definition image_entry (MH_DYLIB_IN_CACHE : Z) (mh : Apple.mach_header)
  : list SWTSectionBounds :=
  Apple.loadImageFunc MH_DYLIB_IN_CACHE mh [].

(** The images a sequence of events loads, in order. *)
Definition images_of (evs : list Apple.event) : list Apple.mach_header :=
  flat_map (fun ev => match ev with
                      | Apple.ImageLoaded mh => [mh]
                      | Apple.SectionsRequested => []
                      end) evs.

(** The shared list of the Apple locator is empty before the hook is
    installed and lists the entries of all loaded images afterwards. *)
Definition list_in_step (MH_DYLIB_IN_CACHE : Z) (s : Apple.State) : Prop :=
  Apple.sectionBounds s
  = if Apple.once s
    then flat_map (image_entry MH_DYLIB_IN_CACHE) (Apple.loaded s)
    else [].

(** The section [sb] consists of the encodings of [records], back to back,
    inside the address space. *)
Definition section_of_records (cfg : Config) (mem : Memory)
    (sb : SWTSectionBounds) (records : list Framing.TestContentRecord) : Prop :=
  Forall (Framing.well_formed cfg) records /\
  contains mem (start sb) (Framing.encode_section cfg records) /\
  size sb = Z.of_nat (List.length (Framing.encode_section cfg records)) /\
  0 <= start sb /\
  start sb + size sb < 2 ^ word_bits cfg.

(** The calls expected for sections of records: every header of every
    section, section after section. *)
Definition expected_calls (cfg : Config) (sbs : list SWTSectionBounds)
    (recordss : list (list Framing.TestContentRecord)) : list Call :=
  concat (map (fun '(sb, records) =>
                 map (pair (imageAddress sb))
                     (Framing.header_addresses cfg (start sb) records))
              (combine sbs recordss)).

(** More concrete inputs. *)
Module MoreExamples.

(** A header whose name size is -12 and whose description size is 0: the
    size computed for it is 0. *)
Definition stuck_header : Memory :=
  bytes_at 4096 [244; 255; 255; 255; 0; 0; 0; 0; 0; 0; 0; 0].

(** A [.sw5test] section smaller than its two sentinels. *)
Definition short_sw5test_section : Windows.IMAGE_SECTION_HEADER :=
  {| Windows.Name := Windows.c_str ".sw5test";
     Windows.VirtualAddress := 8192;
     Windows.VirtualSize := 12;
     Windows.SizeOfRawData := 512 |}.

Definition short_module : Windows.Module :=
  {| Windows.hModule := 65536;
     Windows.e_magic := 23117;
     Windows.e_lfanew := 128;
     Windows.Signature := 17744;
     Windows.sections := [Examples.text_section; short_sw5test_section] |}.

(** A record whose name is [INT32_MAX] zero bytes, with no description;
    its encoding takes [2^31 + 16] bytes on a 64-bit target. *)
Definition huge_name_record : Framing.TestContentRecord :=
  {| Framing.rec_type := 0;
     Framing.rec_name := repeat 0 (Z.to_nat (2 ^ 31 - 1));
     Framing.rec_desc := [] |}.

(** A process in which the section at [2^32] is the encoding of that
    record (header, then zeros), and in which the eight bytes at
    [2^31 + 16], outside the section, read as the sizes [2^31 - 4] and
    [2^31 - 1]. *)
Definition huge_name_process : Memory :=
  fun p =>
    if (2 ^ 32 <=? p) && (p <? 2 ^ 32 + 2 ^ 31 + 16) then
      if p <? 2 ^ 32 + 12
      then nth_error [255; 255; 255; 127; 0; 0; 0; 0; 0; 0; 0; 0]
                     (Z.to_nat (p - 2 ^ 32))
      else Some 0
    else bytes_at (2 ^ 31 + 16) [252; 255; 255; 127; 255; 255; 255; 127] p.

Definition huge_name_bounds : SWTSectionBounds :=
  {| imageAddress := 256; start := 2 ^ 32; size := 2 ^ 31 + 16 |}.

(** The bounds of the two sections of [Examples.two_section_memory]. *)
Definition first_bounds : SWTSectionBounds :=
  {| imageAddress := 256; start := 4096; size := 40 |}.
Definition second_bounds : SWTSectionBounds :=
  {| imageAddress := 512; start := 8192; size := 16 |}.

End MoreExamples.

(* ================================================================== *)
(** * Properties *)

(** ** Machine arithmetic *)

Section ArithmeticFacts.

Import Framing.

Lemma builtin_align_up_pow2 (x j : Z) :
  0 <= j -> builtin_align_up x (2 ^ j) = alignUp x (2 ^ j).
Proof.
  intros Hj. unfold builtin_align_up, alignUp.
  replace (2 ^ j - 1) with (Z.ones j) by (rewrite Z.ones_equiv; lia).
  rewrite <- Z.ldiff_land, Z.ldiff_ones_r by assumption.
  rewrite Z.shiftl_mul_pow2, Z.shiftr_div_pow2 by assumption.
  f_equal. f_equal. rewrite Z.ones_equiv. lia.
Qed.

Lemma builtin_align_up_4 (x : Z) : builtin_align_up x 4 = alignUp x 4.
Proof. exact (builtin_align_up_pow2 x (j := 2) ltac:(lia)). Qed.

Lemma builtin_align_up_ptr (cfg : Config) (x : Z) :
  builtin_align_up x (sizeof_uintptr cfg) = alignUp x (sizeof_uintptr cfg).
Proof.
  unfold sizeof_uintptr. destruct (data_model cfg).
  - exact (builtin_align_up_pow2 x (j := 2) ltac:(lia)).
  - exact (builtin_align_up_pow2 x (j := 3) ltac:(lia)).
Qed.

Lemma alignUp_bounds (x k : Z) :
  0 < k -> x <= alignUp x k < x + k.
Proof.
  intros Hk. unfold alignUp.
  pose proof (Z.div_mod (x + k - 1) k ltac:(lia)).
  pose proof (Z.mod_pos_bound (x + k - 1) k Hk).
  lia.
Qed.

Lemma alignUp_mono (x y k : Z) :
  0 < k -> x <= y -> alignUp x k <= alignUp y k.
Proof.
  intros Hk Hxy. unfold alignUp.
  apply Z.mul_le_mono_nonneg_r; [lia|].
  apply Z.div_le_mono; lia.
Qed.

Lemma sizeof_uintptr_cases (cfg : Config) :
  sizeof_uintptr cfg = 4 /\ 2 ^ word_bits cfg = 2 ^ 32 \/
  sizeof_uintptr cfg = 8 /\ 2 ^ word_bits cfg = 2 ^ 64.
Proof.
  unfold word_bits, sizeof_uintptr. destruct (data_model cfg); [left | right]; split; reflexivity.
Qed.

Lemma wrap_small (cfg : Config) (x : Z) :
  0 <= x < 2 ^ word_bits cfg -> wrap cfg x = x.
Proof. intros H. unfold wrap. apply Z.mod_small. exact H. Qed.

Lemma wrap_range (cfg : Config) (x : Z) : 0 <= wrap cfg x < 2 ^ word_bits cfg.
Proof.
  unfold wrap. apply Z.mod_pos_bound.
  destruct (sizeof_uintptr_cases cfg) as [[_ ->] | [_ ->]]; lia.
Qed.

Lemma field_max_cases (cfg : Config) :
  field_max cfg = 2 ^ 32 - 1 \/ field_max cfg = 2 ^ 31 - 1.
Proof. unfold field_max. destruct (ELF cfg); auto. Qed.

Lemma as_field_small (cfg : Config) (x : Z) :
  0 <= x <= field_max cfg -> as_field cfg x = x.
Proof.
  unfold as_field, field_max, wrap_u32, wrap_s32. destruct (ELF cfg); intros H.
  - apply Z.mod_small. lia.
  - rewrite Z.mod_small; lia.
Qed.

(** Within the stated bounds the size computed by [next] is the framed
    size of the specification. *)
Lemma record_size_framed (cfg : Config) (a b : Z) :
  0 <= a -> a + 3 <= field_max cfg ->
  0 <= b -> b <= field_max cfg ->
  framedSize cfg a b < 2 ^ word_bits cfg ->
  record_size cfg a b = framedSize cfg a b.
Proof.
  intros Ha Ha' Hb Hb' Hfit.
  unfold record_size, framedSize, pointerSize, headerSize, sizeof_header, alignof_uint32 in *.
  rewrite builtin_align_up_4.
  pose proof (alignUp_bounds a (k := 4) ltac:(lia)) as Hn.
  assert (Hp : 0 < sizeof_uintptr cfg)
    by (destruct (sizeof_uintptr_cases cfg) as [[-> _] | [-> _]]; lia).
  pose proof (alignUp_bounds (12 + alignUp a 4 + b) Hp) as Hs.
  rewrite as_field_small by lia.
  assert (Hfm : field_max cfg < 2 ^ word_bits cfg).
  { destruct (field_max_cases cfg) as [-> | ->];
      destruct (sizeof_uintptr_cases cfg) as [[_ ->] | [_ ->]]; lia. }
  rewrite (wrap_small cfg (x := alignUp a 4)) by lia.
  rewrite (wrap_small cfg (x := b)) by lia.
  rewrite (wrap_small cfg (x := 12 + alignUp a 4)) by lia.
  rewrite (wrap_small cfg (x := 12 + alignUp a 4 + b)) by lia.
  rewrite builtin_align_up_ptr.
  apply wrap_small. lia.
Qed.

Lemma framedSize_lower (cfg : Config) (a b : Z) :
  0 <= a -> 0 <= b ->
  alignUp headerSize (pointerSize cfg) <= framedSize cfg a b /\
  headerSize + a + b <= framedSize cfg a b.
Proof.
  intros Ha Hb. unfold framedSize, pointerSize.
  assert (Hp : 0 < sizeof_uintptr cfg)
    by (destruct (sizeof_uintptr_cases cfg) as [[-> _] | [-> _]]; lia).
  pose proof (alignUp_bounds a (k := 4) ltac:(lia)).
  split.
  - apply alignUp_mono; lia.
  - pose proof (alignUp_bounds (headerSize + alignUp a 4 + b) Hp). lia.
Qed.

End ArithmeticFacts.

(** ** Memory and encoded records *)

Section MemoryFacts.

Import Framing.

Lemma contains_app (mem : Memory) (p : Z) (xs ys : list Z) :
  contains mem p (xs ++ ys) ->
  contains mem p xs /\ contains mem (p + Z.of_nat (List.length xs)) ys.
Proof.
  intros H. split; intros i Hi.
  - rewrite (H i) by (rewrite length_app; lia).
    now rewrite nth_error_app1.
  - replace (p + Z.of_nat (List.length xs) + Z.of_nat i)
      with (p + Z.of_nat (List.length xs + i)) by lia.
    rewrite (H (List.length xs + i)%nat) by (rewrite length_app; lia).
    rewrite nth_error_app2 by lia. f_equal. lia.
Qed.

Lemma contains_tail (mem : Memory) (p x : Z) (xs : list Z) :
  contains mem p (x :: xs) -> mem p = Some x /\ contains mem (p + 1) xs.
Proof.
  intros H. split.
  - specialize (H 0%nat ltac:(simpl; lia)). simpl in H.
    now rewrite Z.add_0_r in H.
  - intros i Hi. specialize (H (S i) ltac:(simpl; lia)). simpl in H.
    rewrite <- H. f_equal. lia.
Qed.

Lemma contains_bytes_at (p : Z) (bs : list Z) : contains (bytes_at p bs) p bs.
Proof.
  intros i Hi. unfold bytes_at.
  replace ((p <=? p + Z.of_nat i) && (p + Z.of_nat i <? p + Z.of_nat (List.length bs)))
    with true by (symmetry; apply andb_true_iff; split; [apply Z.leb_le | apply Z.ltb_lt]; lia).
  f_equal. lia.
Qed.

Lemma load_le_contains (mem : Memory) (bs : list Z) :
  forall p, contains mem p bs ->
  load_le mem (List.length bs) p = Ok (le_value bs).
Proof.
  induction bs as [|b bs IH]; intros p H; simpl.
  - reflexivity.
  - apply contains_tail in H. destruct H as [Hb Hrest].
    unfold load8. rewrite Hb. simpl. rewrite (IH _ Hrest). reflexivity.
Qed.

Lemma length_le_bytes (n : nat) : forall x, List.length (le_bytes n x) = n.
Proof. induction n as [|n IH]; intros x; simpl; [reflexivity | now rewrite IH]. Qed.

Lemma le_value_le_bytes (n : nat) :
  forall x, le_value (le_bytes n x) = x mod 2 ^ (8 * Z.of_nat n).
Proof.
  induction n as [|n IH]; intros x.
  - simpl. now rewrite Z.mod_1_r.
  - cbn [le_bytes le_value fold_right]. fold (le_value (le_bytes n (x / 256))).
    rewrite IH.
    replace (2 ^ (8 * Z.of_nat (S n))) with (256 * 2 ^ (8 * Z.of_nat n)).
    + rewrite Z.rem_mul_r by lia. reflexivity.
    + replace (8 * Z.of_nat (S n)) with (8 + 8 * Z.of_nat n) by lia.
      rewrite Z.pow_add_r by lia. reflexivity.
Qed.

Lemma load_le_bytes (mem : Memory) (p x : Z) (n : nat) (rest : list Z) :
  contains mem p (le_bytes n x ++ rest) ->
  load_le mem n p = Ok (x mod 2 ^ (8 * Z.of_nat n)).
Proof.
  intros H. apply contains_app in H. destruct H as [H _].
  apply load_le_contains in H.
  now rewrite length_le_bytes, le_value_le_bytes in H.
Qed.

Lemma padding_length (len k : Z) :
  0 < k -> Z.of_nat (List.length (padding len k)) = alignUp len k - len.
Proof.
  intros Hk. unfold padding. rewrite repeat_length.
  pose proof (alignUp_bounds len Hk). lia.
Qed.

Lemma sizeof_uintptr_pos (cfg : Config) : 0 < sizeof_uintptr cfg.
Proof. destruct (sizeof_uintptr_cases cfg) as [[-> _] | [-> _]]; lia. Qed.

(** The encoding of a record is as long as its framed size. *)
Lemma encode_record_length (cfg : Config) (r : TestContentRecord) :
  Z.of_nat (List.length (encode_record cfg r))
  = framedSize cfg (name_size r) (desc_size r).
Proof.
  unfold encode_record, framedSize, headerSize.
  rewrite length_app, Nat2Z.inj_add.
  rewrite padding_length by apply sizeof_uintptr_pos.
  match goal with |- ?l + (alignUp ?l _ - ?l) = _ => 
    assert (Hl : l = 12 + alignUp (name_size r) 4 + desc_size r) end.
  { rewrite !length_app, !length_le_bytes, !Nat2Z.inj_add.
    rewrite padding_length by lia. unfold name_size, desc_size. lia. }
  rewrite Hl. unfold pointerSize. lia.
Qed.

(** The two size fields read back from an encoded record. *)
Lemma encoded_fields (cfg : Config) (mem : Memory) (p : Z) (r : TestContentRecord) :
  well_formed cfg r ->
  contains mem p (encode_record cfg r) ->
  n_namesz cfg mem p = Ok (name_size r) /\
  n_descsz cfg mem p = Ok (desc_size r).
Proof.
  intros [Hn Hd] H. unfold encode_record in H.
  rewrite <- !app_assoc in H.
  pose proof (Nat2Z.is_nonneg (List.length (rec_name r))) as Hn0.
  pose proof (Nat2Z.is_nonneg (List.length (rec_desc r))) as Hd0.
  fold (name_size r) in Hn0. fold (desc_size r) in Hd0.
  assert (Hfm : field_max cfg < 2 ^ 32)
    by (destruct (field_max_cases cfg) as [-> | ->]; lia).
  split; unfold n_namesz, n_descsz, load_field.
  - rewrite (load_le_bytes _ _ _ H). simpl bind.
    rewrite Z.mod_small by (change (8 * Z.of_nat 4) with 32; lia).
    now rewrite as_field_small by lia.
  - apply contains_app in H. destruct H as [_ H].
    rewrite length_le_bytes in H. change (Z.of_nat 4) with 4 in H.
    rewrite (load_le_bytes _ _ _ H). simpl bind.
    rewrite Z.mod_small by (change (8 * Z.of_nat 4) with 32; lia).
    now rewrite as_field_small by lia.
Qed.

End MemoryFacts.

(** ** The walk over a section of encoded records *)

Section WalkFacts.

Import Framing.

Context (cfg : Config).

Lemma next_encoded (mem : Memory) (p : Z) (r : TestContentRecord) :
  well_formed cfg r ->
  contains mem p (encode_record cfg r) ->
  0 <= p ->
  p + framedSize cfg (name_size r) (desc_size r) < 2 ^ word_bits cfg ->
  next cfg mem p = Ok (p + framedSize cfg (name_size r) (desc_size r)) /\
  record_size cfg (name_size r) (desc_size r)
  = framedSize cfg (name_size r) (desc_size r).
Proof.
  intros Hwf Hmem Hp Hfit.
  destruct (encoded_fields Hwf Hmem) as [Hn Hd].
  destruct Hwf as [Hwn Hwd].
  pose proof (Nat2Z.is_nonneg (List.length (rec_name r))) as Hn0.
  pose proof (Nat2Z.is_nonneg (List.length (rec_desc r))) as Hd0.
  fold (name_size r) in Hn0. fold (desc_size r) in Hd0.
  pose proof (framedSize_lower cfg Hn0 Hd0) as [_ Hlow]. unfold headerSize in Hlow.
  assert (Hsz : record_size cfg (name_size r) (desc_size r)
                = framedSize cfg (name_size r) (desc_size r))
    by (apply record_size_framed; lia).
  split; [|exact Hsz].
  unfold next. rewrite Hn, Hd. simpl bind. rewrite Hsz.
  unfold to_uintptr. rewrite (wrap_small cfg (x := p)) by lia.
  now rewrite wrap_small by lia.
Qed.

Lemma encode_section_cons (r : TestContentRecord) (rs : list TestContentRecord) :
  encode_section cfg (r :: rs) = encode_record cfg r ++ encode_section cfg rs.
Proof. reflexivity. Qed.

Lemma encode_section_app (xs ys : list TestContentRecord) :
  encode_section cfg (xs ++ ys) = encode_section cfg xs ++ encode_section cfg ys.
Proof. unfold encode_section. now rewrite map_app, concat_app. Qed.

Lemma encode_section_cons_length (r : TestContentRecord) (rs : list TestContentRecord) :
  Z.of_nat (List.length (encode_section cfg (r :: rs)))
  = framedSize cfg (name_size r) (desc_size r)
    + Z.of_nat (List.length (encode_section cfg rs)).
Proof.
  rewrite encode_section_cons, length_app, Nat2Z.inj_add.
  now rewrite encode_record_length.
Qed.

Lemma framedSize_pos (r : TestContentRecord) :
  12 <= framedSize cfg (name_size r) (desc_size r).
Proof.
  pose proof (Nat2Z.is_nonneg (List.length (rec_name r))) as Hn0.
  pose proof (Nat2Z.is_nonneg (List.length (rec_desc r))) as Hd0.
  pose proof (@framedSize_lower cfg (name_size r) (desc_size r) Hn0 Hd0) as [_ H].
  unfold headerSize, name_size, desc_size in *. lia.
Qed.

Lemma header_addresses_app (xs ys : list TestContentRecord) :
  forall p,
  header_addresses cfg p (xs ++ ys)
  = header_addresses cfg p xs
    ++ header_addresses cfg (p + Z.of_nat (List.length (encode_section cfg xs))) ys.
Proof.
  induction xs as [|x xs IH]; intros p.
  - simpl. now rewrite Z.add_0_r.
  - cbn [header_addresses app]. rewrite IH. f_equal. f_equal. f_equal.
    rewrite encode_section_cons_length. lia.
Qed.

Lemma header_addresses_length (rs : list TestContentRecord) :
  forall p, List.length (header_addresses cfg p rs) = List.length rs.
Proof. induction rs as [|r rs IH]; intros p; simpl; [reflexivity | now rewrite IH]. Qed.

Lemma header_addresses_lower (rs : list TestContentRecord) :
  forall p, Forall (fun h => p <= h) (header_addresses cfg p rs).
Proof.
  induction rs as [|r rs IH]; intros p; simpl; constructor.
  - lia.
  - pose proof (framedSize_pos r).
    eapply Forall_impl; [|apply IH]. simpl. intros h Hh. lia.
Qed.

Lemma header_addresses_sorted (rs : list TestContentRecord) :
  forall p, StronglySorted Z.lt (header_addresses cfg p rs).
Proof.
  induction rs as [|r rs IH]; intros p; simpl; constructor.
  - apply IH.
  - pose proof (framedSize_pos r).
    eapply Forall_impl; [|apply header_addresses_lower]. simpl. intros h Hh. lia.
Qed.

Lemma sorted_lt_NoDup (l : list Z) : StronglySorted Z.lt l -> NoDup l.
Proof.
  induction 1 as [|x l Hs IH Hall]; constructor; [|assumption].
  intros Hin. rewrite Forall_forall in Hall. specialize (Hall _ Hin). lia.
Qed.

Lemma contains_restrict (mem : Memory) (p : Z) (bs : list Z) :
  contains mem p bs ->
  contains (restrict mem p (p + Z.of_nat (List.length bs))) p bs.
Proof.
  intros H i Hi. unfold restrict.
  replace ((p <=? p + Z.of_nat i) && (p + Z.of_nat i <? p + Z.of_nat (List.length bs)))
    with true by (symmetry; apply andb_true_iff; split; [apply Z.leb_le | apply Z.ltb_lt]; lia).
  now apply H.
Qed.

Lemma visit_all_cons {St : Type} (body : SWTTestContentEnumerator St)
    (image context h : Z) (hs : list Z) (stop : bool) (st : St) :
  visit_all body image context (h :: hs) (stop, st)
  = visit_all body image context hs (body image h stop context st).
Proof. reflexivity. Qed.

Section Visitor.

Context {St : Type} (context : Z) (body : SWTTestContentEnumerator St).

(** The loop run on back-to-back records calls the visitor on each header
    in turn and leaves at the end of the section. *)
Lemma walk_records (mem : Memory) (image end_ : Z) (rs : list TestContentRecord) :
  forall (p : Z) (fuel : nat) (stop : bool) (st : St),
  Forall (well_formed cfg) rs ->
  contains mem p (encode_section cfg rs) ->
  end_ = p + Z.of_nat (List.length (encode_section cfg rs)) ->
  0 <= p -> end_ < 2 ^ word_bits cfg ->
  (List.length rs < fuel)%nat ->
  walk cfg mem context body fuel image p end_ stop st
  = Ok (visit_all body image context (header_addresses cfg p rs) (stop, st)).
Proof.
  induction rs as [|r rs IH]; intros p fuel stop st Hwf Hmem Hend Hp Hfit Hfuel;
    (destruct fuel as [|fuel]; [simpl in Hfuel; lia|]); cbn [walk].
  - simpl in Hend. unfold to_uintptr. rewrite wrap_small by lia.
    replace (p <? end_) with false by (symmetry; apply Z.ltb_ge; lia).
    reflexivity.
  - rewrite encode_section_cons_length in Hend.
    pose proof (framedSize_pos r) as Hpos.
    pose proof (Nat2Z.is_nonneg (List.length (encode_section cfg rs))) as Hrest.
    unfold to_uintptr. rewrite wrap_small by lia.
    replace (p <? end_) with true by (symmetry; apply Z.ltb_lt; lia).
    rewrite encode_section_cons in Hmem. apply contains_app in Hmem.
    destruct Hmem as [Hr Hrs]. rewrite encode_record_length in Hrs.
    inversion Hwf as [|? ? Hwr Hwrs]; subst.
    destruct (next_encoded Hwr Hr Hp ltac:(lia)) as [Hnext _].
    cbn [header_addresses]. rewrite visit_all_cons.
    destruct (body image p stop context st) as [stop' st'].
    rewrite Hnext. simpl bind.
    apply IH; try assumption; simpl in Hfuel; lia.
Qed.

Lemma visit_all_logged (image : Z) (hs : list Z) :
  forall (stop : bool) (log : list Call) (st : St),
  visit_all (logged body) image context hs (stop, (log, st))
  = let '(stop', st') := visit_all body image context hs (stop, st) in
    (stop', (log ++ map (pair image) hs, st')).
Proof.
  induction hs as [|h hs IH]; intros stop log st.
  - simpl. now rewrite app_nil_r.
  - rewrite !visit_all_cons.
    destruct (body image h stop context st) as [stop' st'] eqn:Hcall.
    replace (logged body image h stop context (log, st))
      with (stop', (log ++ [(image, h)], st'))
      by (unfold logged; now rewrite Hcall).
    rewrite IH. destruct (visit_all body image context hs (stop', st')).
    simpl. now rewrite <- app_assoc.
Qed.

Lemma visit_all_never_stops (image : Z) (hs : list Z) :
  never_stops body ->
  forall (stop : bool) (st : St),
  fst (visit_all body image context hs (stop, st)) = stop.
Proof.
  intros Hns. induction hs as [|h hs IH]; intros stop st.
  - reflexivity.
  - rewrite visit_all_cons.
    specialize (Hns image h stop context st).
    destruct (body image h stop context st) as [stop' st']. simpl in Hns. subst.
    apply IH.
Qed.

End Visitor.
End WalkFacts.

(* ================================================================== *)
(** ** Walking well-formed sections *)

Section SectionWalk.

Import Framing.

(** C2 (amended).  A section inside the address space that consists of N
    records laid out back to back, each with a name size that still fits
    the header's field after alignment to 4 and a description size that
    fits it, walked with a visitor that never sets the stop flag: the
    visitor
    is called exactly N times, once on each record's header, in strictly
    ascending address order and without repetition; the last header's
    address plus the size computed for it is [start + size], which is where
    the walk leaves the loop; and nothing outside [start, start + size) is
    read, since the walk succeeds with all other memory unmapped. *)
Theorem walk_visits_each_record_once
    (cfg : Config) (mem : Memory) (sb : SWTSectionBounds)
    (records : list TestContentRecord)
    (St : Type) (context : Z) (body : SWTTestContentEnumerator St) (st : St)
    (fuel : nat) :
  Forall (well_formed cfg) records ->
  contains mem (start sb) (encode_section cfg records) ->
  size sb = Z.of_nat (List.length (encode_section cfg records)) ->
  0 <= start sb ->
  start sb + size sb < 2 ^ word_bits cfg ->
  never_stops body ->
  (List.length records < fuel)%nat ->
  let headers := header_addresses cfg (start sb) records in
  let section_only := restrict mem (start sb) (start sb + size sb) in
  walkSection cfg section_only context (logged body) fuel sb false ([], st)
  = Ok (false,
        (map (pair (imageAddress sb)) headers,
         snd (visit_all body (imageAddress sb) context headers (false, st))))
  /\ List.length headers = List.length records
  /\ StronglySorted Z.lt headers
  /\ NoDup headers
  /\ (forall front r, records = front ++ [r] ->
      exists h,
        headers = header_addresses cfg (start sb) front ++ [h] /\
        h + record_size cfg (name_size r) (desc_size r) = start sb + size sb /\
        next cfg section_only h = Ok (start sb + size sb)).
Proof.
  intros Hwf Hmem Hsize Hstart Hfit Hns Hfuel headers section_only.
  pose proof (Nat2Z.is_nonneg (List.length (encode_section cfg records))) as Hlen.
  assert (Hsec : contains section_only (start sb) (encode_section cfg records)).
  { unfold section_only. rewrite Hsize. now apply contains_restrict. }
  split; [|split; [|split; [|split]]].
  - unfold walkSection, to_uintptr.
    rewrite (wrap_small cfg (x := start sb)) by lia.
    rewrite wrap_small by lia.
    rewrite (@walk_records cfg _ context (logged body) section_only
               (imageAddress sb) (start sb + size sb) records (start sb)
               fuel false ([], st) Hwf Hsec ltac:(lia) Hstart Hfit Hfuel).
    rewrite visit_all_logged.
    pose proof (visit_all_never_stops context (imageAddress sb)
                  (header_addresses cfg (start sb) records) Hns false st) as Hflag.
    fold headers in Hflag |- *.
    destruct (visit_all body (imageAddress sb) context headers (false, st))
      as [stop' st'].
    simpl in Hflag. subst stop'. reflexivity.
  - apply header_addresses_length.
  - apply header_addresses_sorted.
  - apply sorted_lt_NoDup, header_addresses_sorted.
  - intros front r Hrec. subst records.
    exists (start sb + Z.of_nat (List.length (encode_section cfg front))).
    rewrite encode_section_app in Hsec, Hsize.
    apply contains_app in Hsec. destruct Hsec as [_ Hr].
    change (encode_section cfg [r]) with (encode_record cfg r ++ []) in Hr, Hsize.
    rewrite app_nil_r in Hr, Hsize.
    rewrite length_app, Nat2Z.inj_add, encode_record_length in Hsize.
    apply Forall_app in Hwf. destruct Hwf as [_ Hwr].
    inversion Hwr as [|? ? Hwr' _]; subst.
    pose proof (Nat2Z.is_nonneg (List.length (encode_section cfg front))) as Hfront.
    destruct (next_encoded Hwr' Hr ltac:(lia) ltac:(lia)) as [Hnext Hrs].
    split; [|split].
    + unfold headers. now rewrite header_addresses_app.
    + rewrite Hrs. lia.
    + rewrite Hnext. f_equal. lia.
Qed.

(** C3 (amended).  For a record whose name size, once aligned, and whose
    description size fit the 32-bit fields of the header, encoded at an
    address from which it ends inside the address space: the size computed
    by [next] is
    alignUp(headerSize + alignUp(nameSize, 4) + descriptionSize, pointerSize),
    and [next] of its header is the header's address plus the length of the
    encoding, byte for byte. *)
Theorem record_framing_round_trip
    (cfg : Config) (mem : Memory) (p : Z) (r : TestContentRecord) :
  well_formed cfg r ->
  contains mem p (encode_record cfg r) ->
  0 <= p ->
  p + framedSize cfg (name_size r) (desc_size r) < 2 ^ word_bits cfg ->
  record_size cfg (name_size r) (desc_size r)
  = alignUp (headerSize + alignUp (name_size r) 4 + desc_size r) (pointerSize cfg)
  /\ next cfg mem p = Ok (p + Z.of_nat (List.length (encode_record cfg r))).
Proof.
  intros Hwf Hmem Hp Hfit.
  destruct (next_encoded Hwf Hmem Hp Hfit) as [Hnext Hsize].
  split.
  - exact Hsize.
  - now rewrite encode_record_length.
Qed.

End SectionWalk.

(* ================================================================== *)
(** ** The locators as producers of a list of sections *)

Section LocatorFacts.

Context {St : Type} (body : SectionEnumerator St).

Lemma forEachSection_app (xs ys : list SWTSectionBounds) :
  forall st,
  forEachSection body (xs ++ ys) false st
  = ('(stop, st') <- forEachSection body xs false st ;;
     if stop then Ok (stop, st') else forEachSection body ys false st').
Proof.
  induction xs as [|x xs IH]; intros st.
  - reflexivity.
  - cbn [app forEachSection].
    destruct (body x false st) as [[[|] st'] | | |]; simpl; try reflexivity.
    apply IH.
Qed.

(** One loaded object: the loop over its program headers is the section
    loop over its note segments. *)
Lemma phdr_loop_notes (cfg : Config) (PT_NOTE : Z) (info : Elf.dl_phdr_info)
    (phdrs : list Elf.Phdr) :
  forall st,
  Elf.phdr_loop cfg PT_NOTE body info phdrs false st
  = forEachSection body
      (map (Elf.bounds_of cfg info)
           (filter (fun phdr => Elf.p_type phdr =? PT_NOTE) phdrs))
      false st.
Proof.
  induction phdrs as [|phdr rest IH]; intros st.
  - reflexivity.
  - cbn [Elf.phdr_loop filter].
    destruct (Elf.p_type phdr =? PT_NOTE).
    + cbn [map forEachSection].
      destruct (body (Elf.bounds_of cfg info phdr) false st)
        as [[[|] st'] | | |]; simpl; try reflexivity.
      * now destruct rest.
      * apply IH.
    + simpl bind. apply IH.
Qed.

Lemma dl_iterate_phdr_notes (cfg : Config) (PT_NOTE : Z)
    (objects : list Elf.dl_phdr_info) :
  forall st,
  Elf.dl_iterate_phdr (Elf.callback cfg PT_NOTE body) objects st
  = forEachSection body (Elf.note_segments cfg PT_NOTE objects) false st.
Proof.
  induction objects as [|info rest IH]; intros st.
  - reflexivity.
  - cbn [Elf.dl_iterate_phdr Elf.note_segments flat_map].
    rewrite forEachSection_app. unfold Elf.callback at 1.
    rewrite phdr_loop_notes.
    destruct (forEachSection body _ false st) as [[[|] st'] | | |];
      simpl; try reflexivity.
    apply IH.
Qed.

(** Every locator hands the sections it located to the section loop. *)
Lemma enumerate_located (cfg : Config) (mem : Memory) (pf : Platform) (st : St) :
  fst (enumerateTestContentSections cfg mem pf body st)
  = (sbs <- located_sections cfg mem pf ;;
     discard_flag (forEachSection body sbs false st)).
Proof.
  destruct pf as [in_cache s | dos nt n [modules|] | note objects | ];
    cbn [enumerateTestContentSections located_sections fst bind].
  - unfold Apple.enumerateTestContentSections.
    now destruct (Apple.getTestContentSections in_cache s).
  - reflexivity.
  - reflexivity.
  - unfold Elf.enumerateTestContentSections. now rewrite dl_iterate_phdr_notes.
  - reflexivity.
Qed.

End LocatorFacts.

Section EmptySections.

(** C7.  A section of size 0 is left at the first test of the loop
    condition: whatever the memory (all of it may be unmapped), whatever
    the visitor and the incoming flag, no call is made and no fault
    occurs.  The same holds for a run of the section loop in which every
    section handed to the walker is empty, and for the whole enumeration
    on a platform whose locator comes up with no section at all. *)
Theorem empty_section_is_not_walked
    (cfg : Config) (mem : Memory) (St : Type) (context : Z)
    (body : SWTTestContentEnumerator St) (fuel : nat) (pf : Platform) :
  located_sections cfg mem pf = Ok [] ->
  (forall image p stop log st,
     walkSection cfg mem context (logged body) (S fuel)
       {| imageAddress := image; start := p; size := 0 |} stop (log, st)
     = Ok (stop, (log, st)))
  /\ (forall places log st,
        forEachSection (walkSection cfg mem context (logged body) (S fuel))
          (map (fun '(image, p) => {| imageAddress := image; start := p; size := 0 |})
               places)
          false (log, st)
        = Ok (false, (log, st)))
  /\ (forall log st,
        fst (swt_enumerateTestContent cfg mem (S fuel) pf context (logged body) (log, st))
        = Ok (log, st)).
Proof.
  intros Hnone.
  assert (Hone : forall image p stop (acc : list Call * St),
            walkSection cfg mem context (logged body) (S fuel)
              {| imageAddress := image; start := p; size := 0 |} stop acc
            = Ok (stop, acc)).
  { intros image p stop acc. unfold walkSection. cbn [walk start size imageAddress].
    unfold to_uintptr. rewrite Z.add_0_r.
    rewrite (wrap_small cfg (x := wrap cfg p)) by apply wrap_range.
    now rewrite Z.ltb_irrefl. }
  split; [|split].
  - intros. apply Hone.
  - induction places as [|[image p] places IH]; intros log st.
    + reflexivity.
    + cbn [map forEachSection]. rewrite Hone. simpl bind. apply IH.
  - intros log st. unfold swt_enumerateTestContent.
    rewrite enumerate_located, Hnone. reflexivity.
Qed.

End EmptySections.

(* ================================================================== *)
(** ** Progress and termination of the walk *)

Section Termination.

Import Framing.

Context (cfg : Config) (mem : Memory).




Section Visitor.

Context {St : Type} (context : Z) (body : SWTTestContentEnumerator St).



End Visitor.



End Termination.

(* ================================================================== *)
(** ** Windows: [findSection] and the module loop *)

Section WindowsFacts.

Import Windows.

Context (cfg : Config) (mem : Memory).
Context (IMAGE_DOS_SIGNATURE IMAGE_NT_SIGNATURE : Z) (IMAGE_SIZEOF_SHORT_NAME : nat).

Local Notation "'scan'" := (scanSections cfg mem IMAGE_SIZEOF_SHORT_NAME).
Local Notation "'find_section'" :=
  (findSection cfg mem IMAGE_DOS_SIGNATURE IMAGE_NT_SIGNATURE IMAGE_SIZEOF_SHORT_NAME).
Local Notation "'collect'" :=
  (collectSections cfg mem IMAGE_DOS_SIGNATURE IMAGE_NT_SIGNATURE IMAGE_SIZEOF_SHORT_NAME).
Local Notation "'enumerate'" :=
  (Windows.enumerateTestContentSections cfg mem IMAGE_DOS_SIGNATURE IMAGE_NT_SIGNATURE
     IMAGE_SIZEOF_SHORT_NAME).

Lemma scan_app_none (h : Z) (name : list Z)
    (before rest : list IMAGE_SECTION_HEADER) :
  scan h name before = Ok None ->
  scan h name (before ++ rest) = scan h name rest.
Proof.
  induction before as [|s before IH]; intros Hnone.
  - reflexivity.
  - cbn [app scanSections] in *.
    destruct (VirtualAddress s =? 0); [exact (IH Hnone)|].
    destruct (negb (section_start cfg h s =? 0) && (0 <? candidate_size s));
      [|exact (IH Hnone)].
    destruct (strncmp name (Name s) IMAGE_SIZEOF_SHORT_NAME =? 0);
      [|exact (IH Hnone)].
    destruct (debug_asserts cfg mem (section_start cfg h s) (candidate_size s));
      cbn [bind] in *; try discriminate.
    destruct (2 * sizeof_uintptr cfg <? candidate_size s); [discriminate|].
    exact (IH Hnone).
Qed.

Lemma findSection_valid (m : Module) (name : list Z) :
  valid_headers cfg IMAGE_DOS_SIGNATURE IMAGE_NT_SIGNATURE m ->
  find_section m name = scan (hModule m) name (sections m).
Proof.
  intros (Hh & Hmagic & Hlfanew & Hnt & Hsig). unfold findSection.
  apply Z.eqb_neq in Hh. rewrite Hh.
  apply Z.eqb_eq in Hmagic. rewrite Hmagic.
  replace (e_lfanew m <=? 0) with false by (symmetry; apply Z.leb_gt; lia).
  apply Z.eqb_neq in Hnt. rewrite Hnt.
  apply Z.eqb_eq in Hsig. rewrite Hsig.
  reflexivity.
Qed.

(** C4 (amended).  In a module whose headers pass validation, let the
    linear walk of the section table reach a section with a non-zero
    address whose 8-byte name matches (nothing before it was returned),
    in a build without the DEBUG assertions or with those assertions
    holding for the section.  Its candidate size is
    min(VirtualSize, SizeOfRawData).  If that exceeds two pointer sizes,
    the bounds returned start one pointer size after the section's start
    and their size is the candidate size less two pointer sizes; otherwise
    the section is passed over as if it were absent and the result is that
    of the rest of the table (nothing, when it was the last section). *)
Theorem findSection_trims_sentinels
    (m : Module) (name : list Z)
    (before after : list IMAGE_SECTION_HEADER) (s : IMAGE_SECTION_HEADER) :
  valid_headers cfg IMAGE_DOS_SIGNATURE IMAGE_NT_SIGNATURE m ->
  sections m = before ++ s :: after ->
  scan (hModule m) name before = Ok None ->
  VirtualAddress s <> 0 ->
  section_start cfg (hModule m) s <> 0 ->
  strncmp name (Name s) IMAGE_SIZEOF_SHORT_NAME = 0 ->
  debug_asserts cfg mem (section_start cfg (hModule m) s)
    (Z.min (VirtualSize s) (SizeOfRawData s)) = Ok tt ->
  section_start cfg (hModule m) s + Z.min (VirtualSize s) (SizeOfRawData s)
    <= 2 ^ word_bits cfg ->
  (2 * sizeof_uintptr cfg < Z.min (VirtualSize s) (SizeOfRawData s) ->
     find_section m name
     = Ok (Some {| imageAddress := hModule m;
                   start := section_start cfg (hModule m) s + sizeof_uintptr cfg;
                   size := Z.min (VirtualSize s) (SizeOfRawData s)
                           - 2 * sizeof_uintptr cfg |}))
  /\ (Z.min (VirtualSize s) (SizeOfRawData s) <= 2 * sizeof_uintptr cfg ->
        find_section m name = scan (hModule m) name after /\
        (after = [] -> find_section m name = Ok None)).
Proof.
  intros Hvalid Htable Hbefore Hva Hstart Hname Hdebug Hfit.
  rewrite findSection_valid by exact Hvalid.
  rewrite Htable, scan_app_none by exact Hbefore.
  cbn [scanSections]. fold (candidate_size s) in *.
  apply Z.eqb_neq in Hva. rewrite Hva.
  pose proof (sizeof_uintptr_pos cfg) as Hptr.
  pose proof (wrap_range cfg (to_uintptr cfg (hModule m) + VirtualAddress s)) as Hrange.
  fold (section_start cfg (hModule m) s) in Hrange.
  apply Z.eqb_neq in Hstart. rewrite Hstart.
  apply Z.eqb_eq in Hname. rewrite Hname.
  rewrite Hdebug. cbn [bind].
  split.
  - intros Hbig.
    replace (0 <? candidate_size s) with true by (symmetry; apply Z.ltb_lt; lia).
    replace (2 * sizeof_uintptr cfg <? candidate_size s) with true
      by (symmetry; apply Z.ltb_lt; lia).
    cbn [negb andb]. rewrite !wrap_small by lia. reflexivity.
  - intros Hsmall.
    assert (Hscan : (if negb false && (0 <? candidate_size s)
                     then if 2 * sizeof_uintptr cfg <? candidate_size s
                          then Ok (Some {| imageAddress := hModule m;
                                 start := wrap cfg (section_start cfg (hModule m) s
                                                    + sizeof_uintptr cfg);
                                 size := wrap cfg (candidate_size s
                                                   - 2 * sizeof_uintptr cfg) |})
                          else scan (hModule m) name after
                     else scan (hModule m) name after)
                    = scan (hModule m) name after).
    { replace (2 * sizeof_uintptr cfg <? candidate_size s) with false
        by (symmetry; apply Z.ltb_ge; lia).
      now destruct (negb false && (0 <? candidate_size s)). }
    split.
    + exact Hscan.
    + intros ->. rewrite Hscan. reflexivity.
Qed.






End WindowsFacts.

(* ================================================================== *)
(** ** ELF: note segments *)

Section ElfFacts.

Import Elf.

Context (cfg : Config) (PT_NOTE : Z).

Lemma forEachSection_record_bounds (sbs : list SWTSectionBounds) :
  forall log, forEachSection record_bounds sbs false log = Ok (false, log ++ sbs).
Proof.
  induction sbs as [|sb sbs IH]; intros log.
  - simpl. now rewrite app_nil_r.
  - cbn [forEachSection record_bounds bind]. rewrite IH.
    now rewrite <- app_assoc.
Qed.

(** C5.  The ELF locator behaves as the plain section loop run over the
    bounds of the note segments, image after image and header after header
    in the order of iteration: the visitor is handed those bounds and no
    others.  A bounds value is in that list exactly when it is built from
    a loaded image and one of its program headers of type [PT_NOTE], with
    the image's base address, that base plus the header's virtual address,
    and the header's memory size; no name is looked at and nothing is
    remembered from one call to the next. *)
Theorem elf_visits_every_note_segment
    (objects : list dl_phdr_info) :
  (forall (St : Type) (body : SectionEnumerator St) (st : St),
     Elf.enumerateTestContentSections cfg PT_NOTE body objects st
     = discard_flag (forEachSection body (note_segments cfg PT_NOTE objects) false st))
  /\ Elf.enumerateTestContentSections cfg PT_NOTE record_bounds objects []
     = Ok (note_segments cfg PT_NOTE objects)
  /\ (forall sb,
        In sb (note_segments cfg PT_NOTE objects) <->
        exists info phdr,
          In info objects /\ In phdr (dlpi_phdr info) /\
          p_type phdr = PT_NOTE /\
          sb = {| imageAddress := dlpi_addr info;
                  start := wrap cfg (dlpi_addr info + p_vaddr phdr);
                  size := wrap cfg (p_memsz phdr) |}).
Proof.
  split; [|split].
  - intros St body st. unfold Elf.enumerateTestContentSections.
    now rewrite dl_iterate_phdr_notes.
  - unfold Elf.enumerateTestContentSections.
    rewrite dl_iterate_phdr_notes, forEachSection_record_bounds. reflexivity.
  - intros sb. unfold note_segments. rewrite in_flat_map. split.
    + intros (info & Hinfo & Hsb). apply in_map_iff in Hsb.
      destruct Hsb as (phdr & Heq & Hphdr). apply filter_In in Hphdr.
      destruct Hphdr as [Hphdr Htype]. apply Z.eqb_eq in Htype.
      exists info, phdr. repeat split; try assumption. now symmetry.
    + intros (info & phdr & Hinfo & Hphdr & Htype & Heq).
      exists info. split; [assumption|]. apply in_map_iff.
      exists phdr. split; [now symmetry|]. apply filter_In.
      split; [assumption | now apply Z.eqb_eq].
Qed.

End ElfFacts.

(* ================================================================== *)
(** ** Apple: what the shared list can hold *)

Section AppleFacts.

Import Apple.

Context (MH_DYLIB_IN_CACHE : Z).

Local Notation "'good'" := (qualifies MH_DYLIB_IN_CACHE).

Lemma qualifies_incl (images images' : list mach_header) (sb : SWTSectionBounds) :
  incl images images' -> good images sb -> good images' sb.
Proof.
  intros Hincl (Hsize & Hstart & mh & Hin & Hrest).
  repeat split; try assumption. exists mh. split; [now apply Hincl | assumption].
Qed.

Lemma Forall_qualifies_incl (images images' : list mach_header)
    (cache : list SWTSectionBounds) :
  incl images images' ->
  Forall (good images) cache -> Forall (good images') cache.
Proof.
  intros Hincl. apply Forall_impl. intros sb. now apply qualifies_incl.
Qed.

(** The append keeps the invariant. *)
Lemma loadImageFunc_qualifies (images : list mach_header) (mh : mach_header)
    (cache : list SWTSectionBounds) :
  In mh images ->
  Forall (good images) cache ->
  Forall (good images) (loadImageFunc MH_DYLIB_IN_CACHE mh cache).
Proof.
  intros Hin Hcache. unfold loadImageFunc.
  destruct (Z.eqb_spec (Z.land (flags mh) MH_DYLIB_IN_CACHE) 0) as [Hflag | Hflag];
    cbn [negb]; [|assumption].
  destruct (getsectiondata mh "__DATA_CONST" "__swift5_tests") as [p n] eqn:Hsect.
  destruct (Z.eqb_spec p 0) as [Hp | Hp]; cbn [negb andb]; [assumption|].
  destruct (Z.ltb_spec 0 n) as [Hn | Hn]; [|assumption].
  apply Forall_app. split; [assumption|].
  constructor; [|constructor].
  repeat split; cbn [size start imageAddress]; try assumption.
  exists mh. repeat split; assumption.
Qed.

Lemma install_qualifies (images : list mach_header) :
  forall (pending : list mach_header) (cache : list SWTSectionBounds),
  incl pending images ->
  Forall (good images) cache ->
  Forall (good images)
    (fold_left (fun c mh => loadImageFunc MH_DYLIB_IN_CACHE mh c) pending cache).
Proof.
  induction pending as [|mh pending IH]; intros cache Hincl Hcache.
  - exact Hcache.
  - cbn [fold_left]. apply IH.
    + intros x Hx. apply Hincl. now right.
    + apply loadImageFunc_qualifies; [apply Hincl; now left | assumption].
Qed.

Lemma dyld_load_qualifies (mh : mach_header) (s : State) :
  Forall (good (loaded s)) (sectionBounds s) ->
  Forall (good (loaded (dyld_load MH_DYLIB_IN_CACHE mh s)))
         (sectionBounds (dyld_load MH_DYLIB_IN_CACHE mh s)).
Proof.
  intros Hinv. unfold dyld_load. cbn [loaded sectionBounds].
  assert (Hgrow : Forall (good (loaded s ++ [mh])) (sectionBounds s)).
  { eapply Forall_qualifies_incl; [|exact Hinv]. apply incl_appl, incl_refl. }
  destruct (once s); [|exact Hgrow].
  apply loadImageFunc_qualifies; [|exact Hgrow].
  apply in_or_app. right. now left.
Qed.

Lemma getTestContentSections_qualifies (s : State) :
  Forall (good (loaded s)) (sectionBounds s) ->
  let '(snapshot, s') := getTestContentSections MH_DYLIB_IN_CACHE s in
  loaded s' = loaded s /\
  snapshot = sectionBounds s' /\
  Forall (good (loaded s')) (sectionBounds s').
Proof.
  intros Hinv. unfold getTestContentSections.
  destruct (once s); cbn [loaded sectionBounds].
  - repeat split. exact Hinv.
  - repeat split. apply install_qualifies; [apply incl_refl | constructor].
Qed.

Lemma run_qualifies (evs : list event) :
  forall s,
  Forall (good (loaded s)) (sectionBounds s) ->
  let '(s', snapshots) := run MH_DYLIB_IN_CACHE evs s in
  incl (loaded s) (loaded s') /\
  Forall (good (loaded s')) (sectionBounds s') /\
  Forall (Forall (good (loaded s'))) snapshots.
Proof.
  induction evs as [|[mh|] evs IH]; intros s Hinv; cbn [run].
  - repeat split; [apply incl_refl | exact Hinv | constructor].
  - specialize (IH _ (@dyld_load_qualifies mh s Hinv)).
    destruct (run MH_DYLIB_IN_CACHE evs (dyld_load MH_DYLIB_IN_CACHE mh s))
      as [s' snapshots].
    destruct IH as (Hincl & Hs' & Hsnaps). repeat split; try assumption.
    intros x Hx. apply Hincl. cbn [dyld_load loaded]. apply in_or_app. now left.
  - pose proof (@getTestContentSections_qualifies s Hinv) as Hget.
    destruct (getTestContentSections MH_DYLIB_IN_CACHE s) as [snapshot s1].
    destruct Hget as (Hloaded & Hsnap & Hs1).
    specialize (IH _ Hs1).
    destruct (run MH_DYLIB_IN_CACHE evs s1) as [s' snapshots].
    destruct IH as (Hincl & Hs' & Hsnaps).
    rewrite Hloaded in Hincl. repeat split; try assumption.
    constructor; [|assumption].
    subst snapshot. eapply Forall_qualifies_incl; [|exact Hs1].
    now rewrite Hloaded.
Qed.

(** C9.  Take any state in which every element of the shared list comes
    from a loaded image outside the shared cache whose
    [__DATA_CONST,__swift5_tests] lookup returned a non-null start and a
    size above 0.  Loading one more image (the only operation that
    appends) leaves the list in that condition, and so does any sequence
    of image loads and enumeration calls; every snapshot handed out along
    the way has the property too. *)
Theorem cache_holds_only_qualifying_sections
    (s : State) (mh : mach_header) (evs : list event) :
  Forall (good (loaded s)) (sectionBounds s) ->
  Forall (good (loaded (dyld_load MH_DYLIB_IN_CACHE mh s)))
         (sectionBounds (dyld_load MH_DYLIB_IN_CACHE mh s))
  /\ Forall (good (loaded (fst (run MH_DYLIB_IN_CACHE evs s))))
            (sectionBounds (fst (run MH_DYLIB_IN_CACHE evs s)))
  /\ Forall (Forall (good (loaded (fst (run MH_DYLIB_IN_CACHE evs s)))))
            (snd (run MH_DYLIB_IN_CACHE evs s)).
Proof.
  intros Hinv. split.
  - now apply dyld_load_qualifies.
  - pose proof (run_qualifies evs _ Hinv) as Hrun.
    destruct (run MH_DYLIB_IN_CACHE evs s) as [s' snapshots].
    destruct Hrun as (_ & Hs' & Hsnaps). now split.
Qed.

End AppleFacts.

(* ================================================================== *)
(** ** The theorems at concrete inputs *)

Section Instances.

Import Framing Examples.

Ltac concrete :=
  vm_compute;
  repeat match goal with |- _ /\ _ => split end;
  first [ reflexivity | discriminate | (intro; discriminate) | lia ].

Lemma walk_visits_each_record_once_witness :
  walkSection lp64 (restrict two_record_memory 4096 (4096 + 40)) 0
    (logged count_calls) 3 two_record_bounds false ([], 0%nat)
  = Ok (false, ([(256, 4096); (256, 4120)], 2%nat)).
Proof.
  refine (proj1 (@walk_visits_each_record_once lp64 two_record_memory
                   two_record_bounds two_records nat 0 count_calls 0%nat 3%nat
                   _ _ _ _ _ _ _)).
  - repeat constructor; concrete.
  - apply contains_bytes_at.
  - reflexivity.
  - concrete.
  - concrete.
  - intros image header stop context st. reflexivity.
  - concrete.
Defined.

Lemma record_framing_round_trip_witness :
  record_size lp64 3 5 = 24 /\ next lp64 one_record_memory 4096 = Ok 4120.
Proof.
  refine (@record_framing_round_trip lp64 one_record_memory 4096 first_record
            _ _ _ _).
  - concrete.
  - apply contains_bytes_at.
  - concrete.
  - concrete.
Defined.

(** C3, as stated, fails.  On a 64-bit non-ELF target take a header at
    [2^32] whose name size is [2^31 - 1] and whose description size is 0
    (both non-negative).  Aligning the name size to 4 overflows [int32_t];
    the size computed by [next] is [2^64 - 2^31 + 16], not the framed size
    [2^31 + 16] that an encoder of such a record uses, and the next header
    is put at [2^31 + 16], not at [2^32 + 2^31 + 16]. *)
Lemma record_framing_counterexample :
  n_namesz lp64 huge_name_header (2 ^ 32) = Ok (2 ^ 31 - 1) /\
  n_descsz lp64 huge_name_header (2 ^ 32) = Ok 0 /\
  0 <= 2 ^ 31 - 1 /\ 0 <= 0 /\
  record_size lp64 (2 ^ 31 - 1) 0 = 2 ^ 64 - 2 ^ 31 + 16 /\
  alignUp (headerSize + alignUp (2 ^ 31 - 1) 4 + 0) (pointerSize lp64) = 2 ^ 31 + 16 /\
  next lp64 huge_name_header (2 ^ 32) = Ok (2 ^ 31 + 16) /\
  next lp64 huge_name_header (2 ^ 32)
  <> Ok (2 ^ 32 + alignUp (headerSize + alignUp (2 ^ 31 - 1) 4 + 0) (pointerSize lp64)).
Proof. concrete. Qed.

(** On a 32-bit target no signed arithmetic is involved: with name size
    [2^31 - 4] and description size [2^31 - 1] the sum wraps in [size_t]
    and the computed size is 8, less than the header itself. *)
Example record_size_wraps_on_32_bit :
  record_size ilp32 (2 ^ 31 - 4) (2 ^ 31 - 1) = 8 /\
  framedSize ilp32 (2 ^ 31 - 4) (2 ^ 31 - 1) = 2 ^ 32 + 8.
Proof. split; reflexivity. Qed.

Lemma empty_section_is_not_walked_witness :
  fst (swt_enumerateTestContent lp64_elf unmapped_memory 1
         (OnElf PT_NOTE [plain_object]) 0 (logged count_calls) ([], 0%nat))
  = Ok ([], 0%nat).
Proof.
  refine (proj2 (proj2 (@empty_section_is_not_walked lp64_elf unmapped_memory
                          nat 0 count_calls 0%nat (OnElf PT_NOTE [plain_object]) _))
            [] 0%nat).
  reflexivity.
Defined.




Lemma findSection_trims_sentinels_witness :
  Windows.findSection lp64_debug zero_memory IMAGE_DOS_SIGNATURE IMAGE_NT_SIGNATURE
    IMAGE_SIZEOF_SHORT_NAME swift_module (Windows.c_str ".sw5test")
  = Ok (Some {| imageAddress := 65536; start := 65536 + 8192 + 8; size := 40 |}).
Proof.
  refine (proj1 (@findSection_trims_sentinels lp64_debug zero_memory
                   IMAGE_DOS_SIGNATURE IMAGE_NT_SIGNATURE IMAGE_SIZEOF_SHORT_NAME
                   swift_module (Windows.c_str ".sw5test")
                   [text_section] [] sw5test_section _ _ _ _ _ _ _ _) _);
    concrete.
Defined.


Lemma cache_holds_only_qualifying_sections_witness :
  Forall (Forall (Apple.qualifies MH_DYLIB_IN_CACHE
                    [system_image; tests_image; more_tests_image]))
    [[]; [{| imageAddress := 256; start := 4096; size := 40 |}];
     [{| imageAddress := 256; start := 4096; size := 40 |};
      {| imageAddress := 512; start := 8192; size := 16 |}]].
Proof.
  refine (proj2 (proj2 (@cache_holds_only_qualifying_sections MH_DYLIB_IN_CACHE
                          Apple.initial tests_image
                          [Apple.ImageLoaded system_image;
                           Apple.SectionsRequested;
                           Apple.ImageLoaded tests_image;
                           Apple.SectionsRequested;
                           Apple.ImageLoaded more_tests_image;
                           Apple.SectionsRequested] _))).
  constructor.
Defined.

Lemma encode_zero_name (cfg : Config) (N : nat) :
  exists zeros,
    Forall (fun b => b = 0) zeros /\
    encode_record cfg {| rec_type := 0; rec_name := repeat 0 N; rec_desc := [] |}
    = (le_bytes 4 (Z.of_nat N) ++ [0; 0; 0; 0; 0; 0; 0; 0]) ++ zeros.
Proof.
  unfold encode_record, name_size, desc_size, padding.
  cbn [rec_type rec_name rec_desc]. rewrite repeat_length.
  eexists (repeat 0 N ++ repeat 0 _ ++ [] ++ repeat 0 _). split.
  - repeat (apply Forall_app; split); try apply Forall_nil;
      apply Forall_forall; intros x Hx; now apply repeat_spec in Hx.
  - change (le_bytes 4 (Z.of_nat (List.length (@nil Z)))) with [0; 0; 0; 0].
    change (le_bytes 4 0) with [0; 0; 0; 0].
    rewrite <- !app_assoc. reflexivity.
Qed.

Lemma huge_name_record_sizes :
  name_size MoreExamples.huge_name_record = 2 ^ 31 - 1 /\
  desc_size MoreExamples.huge_name_record = 0.
Proof.
  unfold name_size, desc_size, MoreExamples.huge_name_record.
  cbn [rec_name rec_desc].
  rewrite repeat_length, Z2Nat.id by lia. split; reflexivity.
Qed.

Lemma huge_name_section_length :
  Z.of_nat (List.length (encode_section lp64 [MoreExamples.huge_name_record]))
  = 2 ^ 31 + 16.
Proof.
  unfold encode_section. cbn [map concat]. rewrite app_nil_r.
  rewrite encode_record_length.
  destruct huge_name_record_sizes as [-> ->]. reflexivity.
Qed.

Lemma huge_name_section_contents :
  contains MoreExamples.huge_name_process (2 ^ 32)
    (encode_section lp64 [MoreExamples.huge_name_record]).
Proof.
  pose proof huge_name_section_length as Hlen.
  unfold encode_section in *. cbn [map concat] in *. rewrite app_nil_r in *.
  unfold MoreExamples.huge_name_record in *.
  destruct (encode_zero_name lp64 (Z.to_nat (2 ^ 31 - 1))) as (zeros & Hz & Henc).
  rewrite Henc in *. clear Henc.
  rewrite Z2Nat.id in * by lia.
  change (le_bytes 4 (2 ^ 31 - 1)) with [255; 255; 255; 127] in *.
  intros i Hi.
  do 12 (destruct i as [|i]; [reflexivity|]).
  cbn [app nth_error].
  rewrite length_app in Hi, Hlen. cbn [app List.length] in Hi, Hlen.
  assert (Hin : (i < List.length zeros)%nat) by lia.
  destruct (nth_error zeros i) as [x|] eqn:Hx;
    [|apply nth_error_None in Hx; lia].
  apply nth_error_In in Hx. rewrite Forall_forall in Hz. rewrite (Hz _ Hx).
  unfold MoreExamples.huge_name_process.
  match goal with |- context [2 ^ 32 + ?z <? 2 ^ 32 + 12] => set (off := z) end.
  assert (Hoff : 12 <= off < 2 ^ 31 + 16) by (subst off; lia).
  destruct (Z.leb_spec (2 ^ 32) (2 ^ 32 + off)); [|lia].
  destruct (Z.ltb_spec (2 ^ 32 + off) (2 ^ 32 + 2 ^ 31 + 16)); [|lia].
  destruct (Z.ltb_spec (2 ^ 32 + off) (2 ^ 32 + 12)); [lia|].
  reflexivity.
Qed.

(** C2, as stated, fails.  On a 64-bit non-ELF target the section at
    [2^32] holds exactly one record, correctly encoded: a name of
    [2^31 - 1] bytes (a value the [int32_t] field holds) and no
    description, [2^31 + 16] bytes in all, which is the section's size.
    Aligning the name size overflows [int32_t], and [next] of the one
    header is [2^31 + 16], below the section.  With only the section
    mapped the walk faults there instead of ending at the section's end;
    in a process where that address is mapped the visitor is called
    twice, the second time on a header outside the section. *)
Lemma walk_huge_name_counterexample :
  contains MoreExamples.huge_name_process (2 ^ 32)
    (encode_section lp64 [MoreExamples.huge_name_record])
  /\ size MoreExamples.huge_name_bounds
     = Z.of_nat (List.length (encode_section lp64 [MoreExamples.huge_name_record]))
  /\ name_size MoreExamples.huge_name_record <= field_max lp64
  /\ desc_size MoreExamples.huge_name_record <= field_max lp64
  /\ start MoreExamples.huge_name_bounds + size MoreExamples.huge_name_bounds
     < 2 ^ word_bits lp64
  /\ List.length [MoreExamples.huge_name_record] = 1%nat
  /\ walkSection lp64
       (restrict MoreExamples.huge_name_process (2 ^ 32) (2 ^ 32 + (2 ^ 31 + 16)))
       0 (logged count_calls) 5 MoreExamples.huge_name_bounds false ([], 0%nat)
     = Fault (2 ^ 31 + 16)
  /\ 2 ^ 31 + 16 < start MoreExamples.huge_name_bounds
  /\ walkSection lp64 MoreExamples.huge_name_process 0 (logged count_calls) 5
       MoreExamples.huge_name_bounds false ([], 0%nat)
     = Ok (false, ([(256, 2 ^ 32); (256, 2 ^ 31 + 16)], 2%nat)).
Proof.
  destruct huge_name_record_sizes as [Hname Hdesc].
  split; [exact huge_name_section_contents|].
  split; [now rewrite huge_name_section_length|].
  split; [rewrite Hname; concrete|].
  split; [rewrite Hdesc; concrete|].
  repeat split; concrete.
Qed.

(** C4, as stated, fails.  In a DEBUG build take a module with valid
    headers whose table holds a [.sw5test] section of 12 bytes, less than
    two pointers: the candidate size is at most two pointer sizes, yet
    [findSection] does not report the section as absent; its first
    assertion fails and the call does not return. *)
Lemma findSection_debug_counterexample :
  Windows.valid_headers lp64_debug IMAGE_DOS_SIGNATURE IMAGE_NT_SIGNATURE
    MoreExamples.short_module
  /\ In MoreExamples.short_sw5test_section
        (Windows.sections MoreExamples.short_module)
  /\ Windows.strncmp (Windows.c_str ".sw5test")
       (Windows.Name MoreExamples.short_sw5test_section)
       IMAGE_SIZEOF_SHORT_NAME = 0
  /\ Z.min (Windows.VirtualSize MoreExamples.short_sw5test_section)
           (Windows.SizeOfRawData MoreExamples.short_sw5test_section) = 12
  /\ 12 <= 2 * sizeof_uintptr lp64_debug
  /\ Windows.findSection lp64_debug zero_memory IMAGE_DOS_SIGNATURE
       IMAGE_NT_SIGNATURE IMAGE_SIZEOF_SHORT_NAME MoreExamples.short_module
       (Windows.c_str ".sw5test") = AssertFailed
  /\ Windows.findSection lp64_debug zero_memory IMAGE_DOS_SIGNATURE
       IMAGE_NT_SIGNATURE IMAGE_SIZEOF_SHORT_NAME MoreExamples.short_module
       (Windows.c_str ".sw5test") <> Ok None.
Proof.
  split; [concrete|].
  split; [right; left; reflexivity|].
  repeat split; concrete.
Qed.

(** A [.sw5test] section of exactly two pointer sizes yields nothing, and
    a DEBUG build faults when the sentinels it wants to check are not
    mapped. *)
Example tiny_section_is_absent :
  Windows.findSection lp64_debug zero_memory IMAGE_DOS_SIGNATURE IMAGE_NT_SIGNATURE
    IMAGE_SIZEOF_SHORT_NAME tiny_module (Windows.c_str ".sw5test") = Ok None.
Proof. reflexivity. Qed.

Example debug_sentinel_unmapped :
  Windows.findSection lp64_debug unmapped_memory IMAGE_DOS_SIGNATURE
    IMAGE_NT_SIGNATURE IMAGE_SIZEOF_SHORT_NAME swift_module (Windows.c_str ".sw5test")
  = Fault 73728.
Proof. reflexivity. Qed.

(** With a visitor that leaves the flag alone all three records of the two
    sections are visited. *)
Example both_sections_walked :
  fst (swt_enumerateTestContent lp64 two_section_memory 8
         (OnApple MH_DYLIB_IN_CACHE two_images_loaded) 0
         (logged count_calls) ([], 0%nat))
  = Ok ([(256, 4096); (256, 4120); (512, 8192)], 3%nat).
Proof. reflexivity. Qed.

(** C1, evaluated where the code departs from it.  Two images are loaded;
    the first has a section of two records, the second a section of one.
    The visitor sets the stop flag during its first call and never clears
    it.  The record loop does not look at the flag: the second record of
    the first section is visited all the same.  Only the section loop
    does, so the second section is not entered. *)
Theorem stop_flag_not_checked_within_section :
  fst (stop_on_first_call 256 4096 false 0 0%nat) = true /\
  fst (swt_enumerateTestContent lp64 two_section_memory 8
         (OnApple MH_DYLIB_IN_CACHE two_images_loaded) 0
         (logged stop_on_first_call) ([], 0%nat))
  = Ok ([(256, 4096); (256, 4120)], 2%nat).
Proof. split; reflexivity. Qed.

End Instances.

(* ================================================================== *)
(** * Further properties of the walker *)

Section WalkerInvariants.

Import Framing.

Context (cfg : Config) (mem : Memory).

Lemma pointer_divides_word : (sizeof_uintptr cfg | 2 ^ word_bits cfg).
Proof.
  destruct (sizeof_uintptr_cases cfg) as [[-> ->] | [-> ->]].
  - exists (2 ^ 30). reflexivity.
  - exists (2 ^ 61). reflexivity.
Qed.

Lemma wrap_mod_pointer (x : Z) :
  wrap cfg x mod sizeof_uintptr cfg = x mod sizeof_uintptr cfg.
Proof.
  unfold wrap. apply Z.mod_mod_divide, pointer_divides_word.
Qed.

Lemma record_size_aligned (a b : Z) :
  record_size cfg a b mod sizeof_uintptr cfg = 0.
Proof.
  unfold record_size. rewrite wrap_mod_pointer, builtin_align_up_ptr.
  unfold alignUp. apply Z.mod_mul.
  pose proof (sizeof_uintptr_pos cfg). lia.
Qed.

Lemma next_range (h q : Z) :
  next cfg mem h = Ok q -> 0 <= q < 2 ^ word_bits cfg.
Proof.
  unfold next. destruct (n_namesz cfg mem h); simpl; try discriminate.
  destruct (n_descsz cfg mem h); simpl; try discriminate.
  intros H. inversion H. apply wrap_range.
Qed.

Lemma next_aligned (h q : Z) :
  to_uintptr cfg h mod sizeof_uintptr cfg = 0 ->
  next cfg mem h = Ok q ->
  to_uintptr cfg q mod sizeof_uintptr cfg = 0.
Proof.
  intros Hh. unfold next.
  destruct (n_namesz cfg mem h) as [a | | |]; simpl; try discriminate.
  destruct (n_descsz cfg mem h) as [b | | |]; simpl; try discriminate.
  intros H. inversion H. unfold to_uintptr at 1.
  rewrite !wrap_mod_pointer, Z.add_mod, Hh, record_size_aligned
    by (pose proof (sizeof_uintptr_pos cfg); lia).
  apply Z.mod_0_l. pose proof (sizeof_uintptr_pos cfg). lia.
Qed.

Lemma headers_called_invariant (P : Z -> Prop) (end_ : Z) :
  (forall h q, P h -> next cfg mem h = Ok q -> P q) ->
  forall fuel h,
  P h ->
  Forall (fun h' => P h' /\ to_uintptr cfg h' < end_)
         (headers_called cfg mem fuel h end_).
Proof.
  intros Hkeep. induction fuel as [|fuel IH]; intros h Hh; cbn [headers_called].
  - constructor.
  - destruct (Z.ltb_spec (to_uintptr cfg h) end_) as [Hlt | Hge]; [|constructor].
    constructor; [now split|].
    destruct (next cfg mem h) as [q | | |] eqn:Hnext; try constructor.
    apply IH. now apply (Hkeep h).
Qed.

Lemma walk_calls_headers_called {St : Type} (context : Z)
    (body : SWTTestContentEnumerator St) (image end_ : Z) :
  forall fuel h stop log st stop' log' st',
  walk cfg mem context (logged body) fuel image h end_ stop (log, st)
  = Ok (stop', (log', st')) ->
  log' = log ++ map (pair image) (headers_called cfg mem fuel h end_).
Proof.
  induction fuel as [|fuel IH]; intros h stop log st stop' log' st' Hrun;
    [discriminate|].
  cbn [walk headers_called] in *.
  destruct (to_uintptr cfg h <? end_).
  - destruct (body image h stop context st) as [stop1 st1] eqn:Hcall.
    replace (logged body image h stop context (log, st))
      with (stop1, (log ++ [(image, h)], st1)) in Hrun
      by (unfold logged; now rewrite Hcall).
    destruct (next cfg mem h) as [q | | |]; cbn [bind] in Hrun; try discriminate.
    rewrite (IH _ _ _ _ _ _ _ Hrun), <- app_assoc. reflexivity.
  - inversion Hrun; subst. cbn [map]. now rewrite app_nil_r.
Qed.

(** X1.  The size that [next] computes is always a multiple of the pointer
    size, so alignment is never lost: when the start of a section is
    pointer-aligned, every header on which the loop runs the visitor is
    pointer-aligned and lies below the end of the section - for any
    memory contents, whether the walk then ends, faults or goes on without
    end.  When the walk returns, the visitor's calls are exactly these
    headers, in order, each with the section's image address. *)
Theorem visited_headers_aligned_and_in_bounds
    (fuel : nat) (sb : SWTSectionBounds) :
  to_uintptr cfg (start sb) mod sizeof_uintptr cfg = 0 ->
  let end_ := wrap cfg (to_uintptr cfg (start sb) + size sb) in
  (forall a b, record_size cfg a b mod sizeof_uintptr cfg = 0)
  /\ Forall (fun h =>
               to_uintptr cfg h mod sizeof_uintptr cfg = 0 /\
               to_uintptr cfg h < end_)
            (headers_called cfg mem fuel (start sb) end_)
  /\ (forall (St : Type) (context : Z) (body : SWTTestContentEnumerator St)
             (stop stop' : bool) (log log' : list Call) (st st' : St),
        walkSection cfg mem context (logged body) fuel sb stop (log, st)
        = Ok (stop', (log', st')) ->
        log' = log ++ map (pair (imageAddress sb))
                          (headers_called cfg mem fuel (start sb) end_)).
Proof.
  intros Halign end_. split; [|split].
  - apply record_size_aligned.
  - apply (headers_called_invariant
             (fun h => to_uintptr cfg h mod sizeof_uintptr cfg = 0));
      [|exact Halign].
    intros h q Hh Hnext. now apply (next_aligned h).
  - intros St context body stop stop' log log' st st' Hrun.
    unfold walkSection in Hrun.
    eapply walk_calls_headers_called. exact Hrun.
Qed.

(** X2.  Inside a section the visitor has no influence on the walk: the
    headers it is called on, and whether the walk ends, faults or runs out
    of fuel, are the same for any two visitors, whatever they do with the
    stop flag and whatever flag the walk starts with. *)
Theorem walk_ignores_the_visitor
    (St1 St2 : Type) (context1 context2 : Z)
    (body1 : SWTTestContentEnumerator St1) (body2 : SWTTestContentEnumerator St2)
    (fuel : nat) (sb : SWTSectionBounds) (stop1 stop2 : bool)
    (log : list Call) (st1 : St1) (st2 : St2) :
  calls_of (walkSection cfg mem context1 (logged body1) fuel sb stop1 (log, st1))
  = calls_of (walkSection cfg mem context2 (logged body2) fuel sb stop2 (log, st2)).
Proof.
  unfold walkSection.
  generalize (wrap cfg (to_uintptr cfg (start sb) + size sb)) as end_.
  generalize (start sb) as h. generalize (imageAddress sb) as image.
  intros image h end_. revert h stop1 stop2 log st1 st2.
  induction fuel as [|fuel IH]; intros h stop1 stop2 log st1 st2.
  - reflexivity.
  - cbn [walk]. destruct (to_uintptr cfg h <? end_); [|reflexivity].
    destruct (body1 image h stop1 context1 st1) as [s1 t1] eqn:Hcall1.
    destruct (body2 image h stop2 context2 st2) as [s2 t2] eqn:Hcall2.
    replace (logged body1 image h stop1 context1 (log, st1))
      with (s1, (log ++ [(image, h)], t1))
      by (unfold logged; now rewrite Hcall1).
    replace (logged body2 image h stop2 context2 (log, st2))
      with (s2, (log ++ [(image, h)], t2))
      by (unfold logged; now rewrite Hcall2).
    destruct (next cfg mem h) as [q | | |]; cbn [bind]; try reflexivity.
    apply IH.
Qed.

(** X3.  A header inside the section whose computed size is 0 (its [next]
    is itself) stalls the walk: the visitor is called on it again and
    again and no amount of fuel suffices. *)
Theorem zero_size_record_stalls_walk
    (St : Type) (context : Z) (body : SWTTestContentEnumerator St)
    (image h end_ : Z) :
  to_uintptr cfg h < end_ ->
  next cfg mem h = Ok h ->
  forall fuel stop st,
    walk cfg mem context body fuel image h end_ stop st = OutOfFuel.
Proof.
  intros Hlt Hnext. induction fuel as [|fuel IH]; intros stop st.
  - reflexivity.
  - cbn [walk]. apply Z.ltb_lt in Hlt. rewrite Hlt.
    destruct (body image h stop context st) as [stop' st'].
    rewrite Hnext. simpl. apply IH.
Qed.

End WalkerInvariants.

(* ================================================================== *)
(** * Unsigned size fields on 64-bit targets *)

Section Elf64Walk.

Context (cfg : Config) (mem : Memory).
Hypothesis Hmodel : data_model cfg = LP64.
Hypothesis Helf : ELF cfg = true.

Lemma word_is_64 : 2 ^ word_bits cfg = 2 ^ 64.
Proof. unfold word_bits, sizeof_uintptr. now rewrite Hmodel. Qed.

Lemma pointer_is_8 : sizeof_uintptr cfg = 8.
Proof. unfold sizeof_uintptr. now rewrite Hmodel. Qed.

Lemma record_size_elf64 (a b : Z) :
  0 <= a < 2 ^ 32 -> 0 <= b < 2 ^ 32 ->
  12 <= record_size cfg a b < 2 ^ 34.
Proof.
  intros Ha Hb. unfold record_size, sizeof_header, alignof_uint32.
  rewrite builtin_align_up_4, builtin_align_up_ptr, pointer_is_8.
  unfold as_field. rewrite Helf. unfold wrap_u32.
  pose proof (Z.mod_pos_bound (Framing.alignUp a 4) (2 ^ 32) ltac:(lia)) as HA.
  set (A := Framing.alignUp a 4 mod 2 ^ 32) in *.
  assert (Hw : forall x, 0 <= x < 2 ^ 64 -> wrap cfg x = x)
    by (intros x Hx; apply wrap_small; now rewrite word_is_64).
  rewrite (Hw A) by lia. rewrite (Hw b) by lia.
  rewrite (Hw (12 + A)) by lia. rewrite (Hw (12 + A + b)) by lia.
  pose proof (@alignUp_bounds (12 + A + b) 8 ltac:(lia)) as Hs.
  rewrite Hw by lia. lia.
Qed.

Lemma load_le_cases (n : nat) :
  forall p, (exists v, load_le mem n p = Ok v) \/ (exists a, load_le mem n p = Fault a).
Proof.
  induction n as [|n IH]; intros p; cbn [load_le].
  - left. now exists 0.
  - unfold load8. destruct (mem p) as [b|]; cbn [bind]; [|right; now exists p].
    destruct (IH (p + 1)) as [[v ->] | [a ->]]; cbn [bind]; [left | right]; eauto.
Qed.

Lemma load_field_elf (p : Z) :
  (exists v, load_field cfg mem p = Ok v /\ 0 <= v < 2 ^ 32)
  \/ (exists a, load_field cfg mem p = Fault a).
Proof.
  unfold load_field.
  destruct (load_le_cases 4 p) as [[raw ->] | [a ->]]; cbn [bind].
  - left. eexists. split; [reflexivity|].
    unfold as_field. rewrite Helf. apply Z.mod_pos_bound. lia.
  - right. now exists a.
Qed.

Lemma next_elf64 (h : Z) :
  0 <= h < 2 ^ 63 ->
  (exists q, next cfg mem h = Ok q /\ h + 12 <= q < 2 ^ 64)
  \/ (exists a, next cfg mem h = Fault a).
Proof.
  intros Hh. unfold next, n_namesz, n_descsz.
  destruct (load_field_elf h) as [(a & -> & Ha) | [x ->]]; cbn [bind];
    [|right; now exists x].
  destruct (load_field_elf (h + 4)) as [(b & -> & Hb) | [x ->]]; cbn [bind];
    [|right; now exists x].
  left. eexists. split; [reflexivity|].
  pose proof (record_size_elf64 Ha Hb) as Hrs.
  unfold to_uintptr.
  rewrite (wrap_small cfg (x := h)) by (rewrite word_is_64; lia).
  rewrite wrap_small by (rewrite word_is_64; lia). lia.
Qed.

Lemma walk_elf64_has_fuel {St : Type} (context : Z)
    (body : SWTTestContentEnumerator St) (image end_ : Z) :
  end_ <= 2 ^ 63 ->
  forall fuel h stop st,
  0 <= h < 2 ^ 64 ->
  (Z.to_nat (end_ - h) < fuel)%nat ->
  walk cfg mem context body fuel image h end_ stop st <> OutOfFuel.
Proof.
  intros Hend. induction fuel as [|fuel IH]; intros h stop st Hh Hfuel; [lia|].
  cbn [walk]. unfold to_uintptr.
  rewrite wrap_small by (rewrite word_is_64; lia).
  destruct (Z.ltb_spec h end_) as [Hlt | Hge]; [|discriminate].
  destruct (body image h stop context st) as [stop' st'].
  destruct (@next_elf64 h ltac:(lia)) as [(q & -> & Hq) | [a ->]]; cbn [bind];
    [|discriminate].
  apply IH; lia.
Qed.

(** X4.  Where the size fields are unsigned and [size_t] has 64 bits (a
    64-bit ELF target), no content of a section can stall the walk: for a
    section in the lower half of the address space and more fuel than the
    section has bytes, the walk ends, or faults on unmapped memory, but
    never runs out of fuel - whatever the bytes in memory are. *)
Theorem elf64_walk_cannot_stall
    (St : Type) (context : Z) (body : SWTTestContentEnumerator St)
    (sb : SWTSectionBounds) (fuel : nat) (stop : bool) (st : St) :
  0 <= start sb -> 0 <= size sb ->
  start sb + size sb <= 2 ^ 63 ->
  (Z.to_nat (size sb) < fuel)%nat ->
  walkSection cfg mem context body fuel sb stop st <> OutOfFuel.
Proof.
  intros Hstart Hsize Hfit Hfuel. unfold walkSection, to_uintptr.
  rewrite (wrap_small cfg (x := start sb)) by (rewrite word_is_64; lia).
  rewrite wrap_small by (rewrite word_is_64; lia).
  apply walk_elf64_has_fuel; lia.
Qed.

End Elf64Walk.

(* ================================================================== *)
(** * The whole enumeration *)

Section Enumeration.

Import Framing.

Context (cfg : Config) (mem : Memory).

Lemma walkSection_records {St : Type} (context : Z)
    (body : SWTTestContentEnumerator St) (fuel : nat)
    (sb : SWTSectionBounds) (records : list TestContentRecord)
    (log : list Call) (st : St) :
  section_of_records cfg mem sb records ->
  never_stops body ->
  (List.length records < fuel)%nat ->
  exists st',
    walkSection cfg mem context (logged body) fuel sb false (log, st)
    = Ok (false,
          (log ++ map (pair (imageAddress sb))
                      (header_addresses cfg (start sb) records), st')).
Proof.
  intros (Hwf & Hmem & Hsize & Hstart & Hfit) Hns Hfuel.
  pose proof (Nat2Z.is_nonneg (List.length (encode_section cfg records))) as Hlen.
  unfold walkSection, to_uintptr.
  rewrite (wrap_small cfg (x := start sb)) by lia.
  rewrite wrap_small by lia.
  rewrite (@walk_records cfg _ context (logged body) mem
             (imageAddress sb) (start sb + size sb) records (start sb)
             fuel false (log, st) Hwf Hmem ltac:(lia) Hstart Hfit Hfuel).
  rewrite visit_all_logged.
  pose proof (visit_all_never_stops context (imageAddress sb)
                (header_addresses cfg (start sb) records) Hns false st) as Hflag.
  destruct (visit_all body (imageAddress sb) context
              (header_addresses cfg (start sb) records) (false, st))
    as [stop' st'].
  simpl in Hflag. subst stop'. now exists st'.
Qed.

(** X5.  End to end: when every section the platform's locator comes up
    with lies inside the address space and consists of records laid out
    back to back, each with a name size that still fits the header's
    field after alignment to 4 and a description size that fits it, and
    the visitor never sets the stop flag, [swt_enumerateTestContent] calls the
    visitor on every record of every section, section after section in
    the locator's order and header after header in address order, each
    call carrying the image address of its section - and on nothing else. *)
Theorem enumeration_visits_every_record
    (pf : Platform) (sbs : list SWTSectionBounds)
    (recordss : list (list TestContentRecord))
    (St : Type) (context : Z) (body : SWTTestContentEnumerator St) (st : St)
    (fuel : nat) :
  located_sections cfg mem pf = Ok sbs ->
  Forall2 (section_of_records cfg mem) sbs recordss ->
  never_stops body ->
  Forall (fun records => (List.length records < fuel)%nat) recordss ->
  exists st',
    fst (swt_enumerateTestContent cfg mem fuel pf context (logged body) ([], st))
    = Ok (expected_calls cfg sbs recordss, st').
Proof.
  intros Hloc Hsecs Hns Hfuel. unfold swt_enumerateTestContent.
  rewrite enumerate_located, Hloc. cbn [bind].
  assert (Hloop : forall log st0,
            exists st',
              forEachSection (walkSection cfg mem context (logged body) fuel)
                sbs false (log, st0)
              = Ok (false, (log ++ expected_calls cfg sbs recordss, st'))).
  { clear Hloc. induction Hsecs as [|sb records sbs recordss Hsec Hrest IH];
      intros log st0.
    - exists st0. unfold expected_calls. simpl. now rewrite app_nil_r.
    - inversion Hfuel as [|? ? Hf Hfs]; subst.
      destruct (walkSection_records context log st0 Hsec Hns Hf) as [st1 Hwalk].
      cbn [forEachSection]. rewrite Hwalk. cbn [bind].
      destruct (IH Hfs (log ++ map (pair (imageAddress sb))
                              (header_addresses cfg (start sb) records)) st1)
        as [st' Hst'].
      exists st'. rewrite Hst'. unfold expected_calls.
      cbn [combine map concat]. now rewrite app_assoc. }
  destruct (Hloop [] st) as [st' Hst']. exists st'.
  rewrite Hst'. reflexivity.
Qed.

(** X6.  The stop flag does cut the enumeration short between sections, on
    every platform: once the section visitor has returned with the flag
    set, after sections on which it had not, no later section of the
    locator's list is handed to it and the enumeration ends with the state
    reached there. *)
Theorem stop_skips_later_sections
    (pf : Platform) (St : Type) (body : SectionEnumerator St)
    (before after : list SWTSectionBounds) (sb : SWTSectionBounds)
    (st st' : St) :
  located_sections cfg mem pf = Ok (before ++ sb :: after) ->
  forEachSection body (before ++ [sb]) false st = Ok (true, st') ->
  fst (enumerateTestContentSections cfg mem pf body st) = Ok st'.
Proof.
  intros Hloc Hstop. rewrite enumerate_located, Hloc. cbn [bind].
  rewrite forEachSection_app in Hstop |- *.
  destruct (forEachSection body before false st) as [[[|] st1] | | |];
    cbn [bind] in *; try discriminate.
  - inversion Hstop; subst. reflexivity.
  - cbn [forEachSection] in *.
    destruct (body sb false st1) as [[[|] st2] | | |]; cbn [bind] in *;
      try discriminate.
    inversion Hstop; subst. reflexivity.
Qed.

End Enumeration.

(* ================================================================== *)
(** * Further properties of the Apple locator *)

Section AppleSnapshots.

Import Apple.

Context (MH_DYLIB_IN_CACHE : Z).

Local Notation "'entry'" := (image_entry MH_DYLIB_IN_CACHE).
Local Notation "'snapshot_after'" :=
  (fun evs => fst (getTestContentSections MH_DYLIB_IN_CACHE
                     (fst (run MH_DYLIB_IN_CACHE evs initial)))).

Lemma loadImageFunc_appends (mh : mach_header) (cache : list SWTSectionBounds) :
  loadImageFunc MH_DYLIB_IN_CACHE mh cache = cache ++ entry mh.
Proof.
  unfold image_entry, loadImageFunc.
  destruct (negb (Z.land (flags mh) MH_DYLIB_IN_CACHE =? 0));
    [now rewrite app_nil_r|].
  destruct (getsectiondata mh "__DATA_CONST" "__swift5_tests") as [p n].
  destruct (negb (p =? 0) && (0 <? n)); [reflexivity | now rewrite app_nil_r].
Qed.

Lemma image_entry_length (mh : mach_header) : (List.length (entry mh) <= 1)%nat.
Proof.
  unfold image_entry, loadImageFunc.
  destruct (negb (Z.land (flags mh) MH_DYLIB_IN_CACHE =? 0)); [simpl; lia|].
  destruct (getsectiondata mh "__DATA_CONST" "__swift5_tests") as [p n].
  destruct (negb (p =? 0) && (0 <? n)); simpl; lia.
Qed.

Lemma install_appends (images : list mach_header) :
  forall cache,
  fold_left (fun c mh => loadImageFunc MH_DYLIB_IN_CACHE mh c) images cache
  = cache ++ flat_map entry images.
Proof.
  induction images as [|mh images IH]; intros cache; cbn [fold_left flat_map].
  - now rewrite app_nil_r.
  - rewrite IH, loadImageFunc_appends, <- app_assoc. reflexivity.
Qed.

Lemma dyld_load_in_step (mh : mach_header) (s : State) :
  list_in_step MH_DYLIB_IN_CACHE s ->
  list_in_step MH_DYLIB_IN_CACHE (dyld_load MH_DYLIB_IN_CACHE mh s).
Proof.
  unfold list_in_step, dyld_load. cbn [once sectionBounds loaded]. intros H.
  destruct (once s); [|exact H].
  rewrite loadImageFunc_appends, H, flat_map_app. cbn [flat_map].
  now rewrite app_nil_r.
Qed.

Lemma getTestContentSections_in_step (s : State) :
  list_in_step MH_DYLIB_IN_CACHE s ->
  fst (getTestContentSections MH_DYLIB_IN_CACHE s) = flat_map entry (loaded s)
  /\ list_in_step MH_DYLIB_IN_CACHE (snd (getTestContentSections MH_DYLIB_IN_CACHE s))
  /\ loaded (snd (getTestContentSections MH_DYLIB_IN_CACHE s)) = loaded s.
Proof.
  unfold list_in_step, getTestContentSections. intros H.
  destruct (once s) eqn:Honce; cbn [fst snd once sectionBounds loaded].
  - rewrite Honce. auto.
  - rewrite install_appends. auto.
Qed.

Lemma run_in_step (evs : list event) :
  forall s,
  list_in_step MH_DYLIB_IN_CACHE s ->
  list_in_step MH_DYLIB_IN_CACHE (fst (run MH_DYLIB_IN_CACHE evs s))
  /\ loaded (fst (run MH_DYLIB_IN_CACHE evs s)) = loaded s ++ images_of evs.
Proof.
  induction evs as [|[mh|] evs IH]; intros s Hs; cbn [run images_of flat_map].
  - now rewrite app_nil_r.
  - destruct (IH _ (@dyld_load_in_step mh s Hs)) as [Hstep Hloaded].
    split; [exact Hstep|]. rewrite Hloaded. cbn [dyld_load loaded].
    now rewrite <- app_assoc.
  - destruct (@getTestContentSections_in_step s Hs) as (_ & Hs1 & Hl1).
    destruct (getTestContentSections MH_DYLIB_IN_CACHE s) as [snapshot s1].
    cbn [snd] in Hs1, Hl1.
    destruct (IH _ Hs1) as [Hstep Hloaded].
    destruct (run MH_DYLIB_IN_CACHE evs s1) as [s2 snapshots].
    cbn [fst] in *. split; [exact Hstep|]. now rewrite Hloaded, Hl1.
Qed.

Lemma snapshot_after_events (evs : list event) :
  snapshot_after evs = flat_map entry (images_of evs).
Proof.
  destruct (@run_in_step evs initial eq_refl) as [Hstep Hloaded].
  destruct (@getTestContentSections_in_step _ Hstep) as (Hsnap & _).
  rewrite Hsnap, Hloaded. reflexivity.
Qed.

(** X7.  After any history of image loads and enumeration calls, the list
    that [getTestContentSections] returns is the concatenation, in load
    order, of what the load hook records for each image loaded so far: at
    most one entry per image, and none missing.  It depends only on the
    images loaded, not on when the first call installed the hook: images
    loaded before that call are picked up just like later ones. *)
Theorem snapshot_lists_every_loaded_image (evs : list event) :
  snapshot_after evs = flat_map entry (images_of evs)
  /\ (List.length (snapshot_after evs) <= List.length (images_of evs))%nat
  /\ (forall evs', images_of evs' = images_of evs ->
        snapshot_after evs' = snapshot_after evs).
Proof.
  split; [|split].
  - apply snapshot_after_events.
  - rewrite snapshot_after_events.
    induction (images_of evs) as [|mh images IH]; cbn [flat_map List.length];
      [lia|].
    rewrite length_app. pose proof (image_entry_length mh). lia.
  - intros evs' Hsame. now rewrite !snapshot_after_events, Hsame.
Qed.

(** X8.  Snapshots only grow: whatever happens after a history, the list
    returned then starts with the list returned now, entry for entry; and
    asking again with no image loaded in between returns the same list. *)
Theorem snapshots_only_grow (evs more : list event) :
  (exists extra, snapshot_after (evs ++ more) = snapshot_after evs ++ extra)
  /\ snapshot_after (evs ++ [SectionsRequested]) = snapshot_after evs.
Proof.
  split.
  - exists (flat_map entry (images_of more)).
    rewrite !snapshot_after_events. unfold images_of.
    now rewrite !flat_map_app.
  - rewrite !snapshot_after_events. unfold images_of.
    rewrite flat_map_app. cbn [flat_map]. now rewrite !app_nil_r.
Qed.

End AppleSnapshots.

(* ================================================================== *)
(** * Further properties of the Windows locator *)

Section WindowsEdges.

Import Windows.

Context (cfg : Config) (mem : Memory).
Context (IMAGE_DOS_SIGNATURE IMAGE_NT_SIGNATURE : Z) (IMAGE_SIZEOF_SHORT_NAME : nat).

Local Notation "'scan'" := (scanSections cfg mem IMAGE_SIZEOF_SHORT_NAME).
Local Notation "'find_section'" :=
  (findSection cfg mem IMAGE_DOS_SIGNATURE IMAGE_NT_SIGNATURE IMAGE_SIZEOF_SHORT_NAME).
Local Notation "'collect'" :=
  (collectSections cfg mem IMAGE_DOS_SIGNATURE IMAGE_NT_SIGNATURE IMAGE_SIZEOF_SHORT_NAME).
Local Notation "'enumerate'" :=
  (Windows.enumerateTestContentSections cfg mem IMAGE_DOS_SIGNATURE IMAGE_NT_SIGNATURE
     IMAGE_SIZEOF_SHORT_NAME).

Lemma scan_sound (h : Z) (name : list Z) (table : list IMAGE_SECTION_HEADER)
    (sb : SWTSectionBounds) :
  scan h name table = Ok (Some sb) ->
  exists s,
    In s table /\
    VirtualAddress s <> 0 /\
    section_start cfg h s <> 0 /\
    strncmp name (Name s) IMAGE_SIZEOF_SHORT_NAME = 0 /\
    2 * sizeof_uintptr cfg < candidate_size s /\
    sb = {| imageAddress := h;
            start := wrap cfg (section_start cfg h s + sizeof_uintptr cfg);
            size := wrap cfg (candidate_size s - 2 * sizeof_uintptr cfg) |}.
Proof.
  induction table as [|s table IH]; intros Hfound; [discriminate|].
  assert (Hlater : scan h name table = Ok (Some sb) ->
                   exists s0, In s0 (s :: table) /\ VirtualAddress s0 <> 0 /\
                     section_start cfg h s0 <> 0 /\
                     strncmp name (Name s0) IMAGE_SIZEOF_SHORT_NAME = 0 /\
                     2 * sizeof_uintptr cfg < candidate_size s0 /\
                     sb = {| imageAddress := h;
                             start := wrap cfg (section_start cfg h s0
                                                + sizeof_uintptr cfg);
                             size := wrap cfg (candidate_size s0
                                               - 2 * sizeof_uintptr cfg) |}).
  { intros H. destruct (IH H) as (s0 & Hin & Hrest). exists s0.
    split; [now right | exact Hrest]. }
  cbn [scanSections] in Hfound.
  destruct (Z.eqb_spec (VirtualAddress s) 0) as [Hva | Hva]; [now apply Hlater|].
  destruct (Z.eqb_spec (section_start cfg h s) 0) as [Hst | Hst];
    cbn [negb andb] in Hfound; [now apply Hlater|].
  destruct (0 <? candidate_size s); [|now apply Hlater].
  destruct (Z.eqb_spec (strncmp name (Name s) IMAGE_SIZEOF_SHORT_NAME) 0)
    as [Hname | Hname]; [|now apply Hlater].
  destruct (debug_asserts cfg mem (section_start cfg h s) (candidate_size s));
    cbn [bind] in Hfound; try discriminate.
  destruct (Z.ltb_spec (2 * sizeof_uintptr cfg) (candidate_size s)) as [Hbig | Hbig];
    [|now apply Hlater].
  inversion Hfound. exists s. repeat split; try assumption. now left.
Qed.

(** X9.  Whatever [findSection] returns comes from a section it had every
    reason to return: the module's handle is non-null and its headers pass
    the three checks, and the table holds a section with a non-zero
    address and a matching name whose candidate size exceeds two pointer
    sizes, from which the bounds are cut - image address the handle, start
    one pointer after the section's start, size two pointers less. *)
Theorem findSection_sound
    (m : Module) (name : list Z) (sb : SWTSectionBounds) :
  find_section m name = Ok (Some sb) ->
  valid_headers cfg IMAGE_DOS_SIGNATURE IMAGE_NT_SIGNATURE m /\
  exists s,
    In s (sections m) /\
    VirtualAddress s <> 0 /\
    section_start cfg (hModule m) s <> 0 /\
    strncmp name (Name s) IMAGE_SIZEOF_SHORT_NAME = 0 /\
    2 * sizeof_uintptr cfg < Z.min (VirtualSize s) (SizeOfRawData s) /\
    sb = {| imageAddress := hModule m;
            start := wrap cfg (section_start cfg (hModule m) s + sizeof_uintptr cfg);
            size := wrap cfg (Z.min (VirtualSize s) (SizeOfRawData s)
                              - 2 * sizeof_uintptr cfg) |}.
Proof.
  unfold findSection. intros Hfound.
  destruct (Z.eqb_spec (hModule m) 0) as [Hh | Hh]; [discriminate|].
  destruct (Z.eqb_spec (e_magic m) IMAGE_DOS_SIGNATURE) as [Hmagic | Hmagic];
    cbn [negb orb] in Hfound; [|discriminate].
  destruct (Z.leb_spec (e_lfanew m) 0) as [Hl | Hl]; [discriminate|].
  destruct (Z.eqb_spec (wrap cfg (to_uintptr cfg (hModule m) + wrap cfg (e_lfanew m))) 0)
    as [Hnt | Hnt]; cbn [orb] in Hfound; [discriminate|].
  destruct (Z.eqb_spec (Signature m) IMAGE_NT_SIGNATURE) as [Hsig | Hsig];
    cbn [negb] in Hfound; [|discriminate].
  split.
  - repeat split; assumption.
  - exact (scan_sound _ _ _ Hfound).
Qed.

(** X11.  A debug build aborts on what a release build passes over: when
    the walk of the section table of a valid module reaches a section with
    a matching name that is non-empty but shorter than two pointers, or
    whose first pointer-sized word is not zero, the assertion fails and
    [findSection] does not return. *)
Theorem debug_findSection_asserts
    (m : Module) (name : list Z)
    (before after : list IMAGE_SECTION_HEADER) (s : IMAGE_SECTION_HEADER) :
  DEBUG cfg = true ->
  valid_headers cfg IMAGE_DOS_SIGNATURE IMAGE_NT_SIGNATURE m ->
  sections m = before ++ s :: after ->
  scan (hModule m) name before = Ok None ->
  VirtualAddress s <> 0 ->
  section_start cfg (hModule m) s <> 0 ->
  strncmp name (Name s) IMAGE_SIZEOF_SHORT_NAME = 0 ->
  (0 < candidate_size s < 2 * sizeof_uintptr cfg
   \/ (2 * sizeof_uintptr cfg <= candidate_size s /\
       exists v, load_le mem (Z.to_nat (sizeof_uintptr cfg))
                   (section_start cfg (hModule m) s) = Ok v /\ v <> 0)) ->
  find_section m name = AssertFailed.
Proof.
  intros Hdebug Hvalid Htable Hbefore Hva Hstart Hname Hbad.
  rewrite findSection_valid by exact Hvalid.
  rewrite Htable, scan_app_none by exact Hbefore.
  cbn [scanSections].
  apply Z.eqb_neq in Hva. rewrite Hva.
  apply Z.eqb_neq in Hstart. rewrite Hstart.
  apply Z.eqb_eq in Hname. rewrite Hname.
  pose proof (sizeof_uintptr_pos cfg) as Hptr.
  replace (0 <? candidate_size s) with true
    by (symmetry; apply Z.ltb_lt; destruct Hbad as [? | [? _]]; lia).
  cbn [negb andb]. unfold debug_asserts. rewrite Hdebug. cbn [negb].
  destruct Hbad as [Hshort | (Hlong & v & Hload & Hv)].
  - replace (2 * sizeof_uintptr cfg <=? candidate_size s) with false
      by (symmetry; apply Z.leb_gt; lia).
    reflexivity.
  - replace (2 * sizeof_uintptr cfg <=? candidate_size s) with true
      by (symmetry; apply Z.leb_le; lia).
    cbn [negb]. rewrite Hload. cbn [bind].
    apply Z.eqb_neq in Hv. rewrite Hv. reflexivity.
Qed.

(** X12.  Only the first 1024 modules of the process are examined: any
    module reported after them has no effect on the enumeration, whatever
    it contains.  And when [EnumProcessModules] fails the visitor is not
    called at all. *)
Theorem only_first_1024_modules_examined
    (first rest : list Module)
    (St : Type) (body : SectionEnumerator St) (st : St) :
  List.length first = 1024%nat ->
  enumerate body (Some (first ++ rest)) st = enumerate body (Some first) st
  /\ enumerate body None st = Ok st.
Proof.
  intros Hlen. split; [|reflexivity].
  unfold Windows.enumerateTestContentSections.
  rewrite firstn_app, Hlen, Nat.sub_diag, firstn_O, app_nil_r.
  reflexivity.
Qed.

End WindowsEdges.

(* ================================================================== *)
(** * Sections too short for a header *)

Section TruncatedHeader.

Context (cfg : Config).

Lemma load_le_mapped (m : Memory) (n : nat) :
  forall p,
  (forall i, 0 <= i < Z.of_nat n -> m (p + i) <> None) ->
  exists v, load_le m n p = Ok v.
Proof.
  induction n as [|n IH]; intros p Hmapped; cbn [load_le].
  - now exists 0.
  - unfold load8. pose proof (Hmapped 0 ltac:(lia)) as H0.
    rewrite Z.add_0_r in H0. destruct (m p) as [b|]; [|contradiction].
    cbn [bind]. destruct (IH (p + 1)) as [v ->].
    + intros i Hi. replace (p + 1 + i) with (p + (1 + i)) by lia.
      apply Hmapped. lia.
    + cbn [bind]. eauto.
Qed.

Lemma load_le_unmapped (m : Memory) (n : nat) :
  forall p k,
  0 <= k < Z.of_nat n ->
  (forall i, 0 <= i < k -> m (p + i) <> None) ->
  m (p + k) = None ->
  load_le m n p = Fault (p + k).
Proof.
  induction n as [|n IH]; intros p k Hk Hmapped Hhole; [lia|].
  cbn [load_le]. unfold load8.
  destruct (Z.eq_dec k 0) as [-> | Hpos].
  - rewrite Z.add_0_r in *. now rewrite Hhole.
  - pose proof (Hmapped 0 ltac:(lia)) as H0. rewrite Z.add_0_r in H0.
    destruct (m p) as [b|]; [|contradiction]. cbn [bind].
    rewrite (IH (p + 1) (k - 1)).
    + cbn [bind]. f_equal. lia.
    + lia.
    + intros i Hi. replace (p + 1 + i) with (p + (1 + i)) by lia.
      apply Hmapped. lia.
    + replace (p + 1 + (k - 1)) with (p + k) by lia. exact Hhole.
Qed.

(** X13.  The loop only checks that a header starts below the end of the
    section.  In a section of fewer than 8 bytes whose bytes are all
    mapped, with nothing mapped behind it, the loop is entered for the
    header at its start, and reading that header's two size fields runs
    off the end: the walk faults at the first address past the section. *)
Theorem short_section_read_past_end
    (mem : Memory) (St : Type) (context : Z)
    (body : SWTTestContentEnumerator St) (fuel : nat)
    (sb : SWTSectionBounds) (stop : bool) (st : St) :
  0 <= start sb ->
  0 < size sb < 8 ->
  start sb + size sb < 2 ^ word_bits cfg ->
  (forall p, start sb <= p < start sb + size sb -> mem p <> None) ->
  walkSection cfg (restrict mem (start sb) (start sb + size sb)) context body
    (S fuel) sb stop st
  = Fault (start sb + size sb).
Proof.
  intros Hstart Hsize Hfit Hmapped.
  set (m := restrict mem (start sb) (start sb + size sb)).
  assert (Hin : forall i, 0 <= i < size sb -> m (start sb + i) <> None).
  { intros i Hi. unfold m, restrict.
    replace ((start sb <=? start sb + i) && (start sb + i <? start sb + size sb))
      with true
      by (symmetry; apply andb_true_iff; split;
          [apply Z.leb_le | apply Z.ltb_lt]; lia).
    apply Hmapped. lia. }
  assert (Hout : m (start sb + size sb) = None).
  { unfold m, restrict.
    replace (start sb + size sb <? start sb + size sb) with false
      by (symmetry; apply Z.ltb_irrefl).
    now rewrite andb_false_r. }
  assert (Hnext : next cfg m (start sb) = Fault (start sb + size sb)).
  { unfold next, n_namesz, n_descsz, load_field.
    destruct (Z.lt_ge_cases (size sb) 4) as [Hlt | Hge].
    - rewrite (@load_le_unmapped m 4 (start sb) (size sb)); try assumption;
        [reflexivity | lia].
    - destruct (@load_le_mapped m 4 (start sb)) as [raw ->].
      + intros i Hi. apply Hin. lia.
      + cbn [bind].
        rewrite (@load_le_unmapped m 4 (start sb + 4) (size sb - 4)).
        * cbn [bind]. f_equal. lia.
        * lia.
        * intros i Hi. replace (start sb + 4 + i) with (start sb + (4 + i)) by lia.
          apply Hin. lia.
        * replace (start sb + 4 + (size sb - 4)) with (start sb + size sb) by lia.
          exact Hout. }
  assert (Hcond : (to_uintptr cfg (start sb)
                   <? wrap cfg (to_uintptr cfg (start sb) + size sb)) = true).
  { unfold to_uintptr. rewrite (wrap_small cfg (x := start sb)) by lia.
    rewrite wrap_small by lia. apply Z.ltb_lt. lia. }
  unfold walkSection. cbn [walk]. rewrite Hcond.
  destruct (body (imageAddress sb) (start sb) stop context st).
  now rewrite Hnext.
Qed.

End TruncatedHeader.

(* ================================================================== *)
(** * The further properties at concrete inputs *)

Section MoreInstances.

Import Framing Examples MoreExamples.

Ltac concretely :=
  vm_compute;
  repeat match goal with |- _ /\ _ => split end;
  first [ reflexivity | discriminate | (intro; discriminate) | lia ].

Lemma visited_headers_aligned_and_in_bounds_witness :
  Forall (fun h => to_uintptr lp64 h mod 8 = 0 /\ to_uintptr lp64 h < 4136)
    [4096; 4120]
  /\ headers_called lp64 (restrict two_record_memory 4096 4120) 3 4096 4136
     = [4096; 4120]
  /\ walkSection lp64 (restrict two_record_memory 4096 4120) 0
       (logged count_calls) 3 two_record_bounds false ([], 0%nat)
     = Fault 4120.
Proof.
  split; [|split; reflexivity].
  refine (proj1 (proj2 (@visited_headers_aligned_and_in_bounds lp64
                          (restrict two_record_memory 4096 4120) 3
                          two_record_bounds _))).
  reflexivity.
Defined.

Lemma zero_size_record_stalls_walk_witness :
  walk lp64 stuck_header 0 count_calls 1000 256 4096 4108 false 0%nat = OutOfFuel.
Proof.
  refine (@zero_size_record_stalls_walk lp64 stuck_header nat 0 count_calls
            256 4096 4108 _ _ 1000%nat false 0%nat); reflexivity.
Defined.

Lemma elf64_walk_cannot_stall_witness :
  walkSection lp64_elf stuck_header 0 count_calls 13
    {| imageAddress := 256; start := 4096; size := 12 |} false 0%nat
  <> OutOfFuel.
Proof.
  refine (@elf64_walk_cannot_stall lp64_elf stuck_header _ _ nat 0 count_calls
            {| imageAddress := 256; start := 4096; size := 12 |} 13 false 0%nat
            _ _ _ _); concretely.
Defined.

Lemma two_sections_hold_records :
  Forall2 (section_of_records lp64 two_section_memory)
    [first_bounds; second_bounds] [two_records; [second_record]].
Proof.
  repeat constructor; try concretely.
  - intros i Hi.
    do 40 (destruct i as [|i]; [reflexivity|]). simpl in Hi. lia.
  - intros i Hi.
    do 16 (destruct i as [|i]; [reflexivity|]). simpl in Hi. lia.
Defined.

Lemma enumeration_visits_every_record_witness :
  exists st',
    fst (swt_enumerateTestContent lp64 two_section_memory 3
           (OnApple MH_DYLIB_IN_CACHE two_images_loaded) 0
           (logged count_calls) ([], 0%nat))
    = Ok ([(256, 4096); (256, 4120); (512, 8192)], st').
Proof.
  refine (@enumeration_visits_every_record lp64 two_section_memory
            (OnApple MH_DYLIB_IN_CACHE two_images_loaded)
            [first_bounds; second_bounds] [two_records; [second_record]]
            nat 0 count_calls 0%nat 3 _ _ _ _).
  - reflexivity.
  - exact two_sections_hold_records.
  - intros image header stop context st. reflexivity.
  - repeat constructor; concretely.
Defined.

Lemma stop_skips_later_sections_witness :
  fst (enumerateTestContentSections lp64 two_section_memory
         (OnApple MH_DYLIB_IN_CACHE two_images_loaded)
         (walkSection lp64 two_section_memory 0 (logged stop_on_first_call) 8)
         ([], 0%nat))
  = Ok ([(256, 4096); (256, 4120)], 2%nat).
Proof.
  refine (@stop_skips_later_sections lp64 two_section_memory
            (OnApple MH_DYLIB_IN_CACHE two_images_loaded) _
            (walkSection lp64 two_section_memory 0 (logged stop_on_first_call) 8)
            [] [second_bounds] first_bounds ([], 0%nat) _ _ _); reflexivity.
Defined.

Lemma findSection_sound_witness :
  Windows.valid_headers lp64 IMAGE_DOS_SIGNATURE IMAGE_NT_SIGNATURE swift_module /\
  exists s,
    In s (Windows.sections swift_module) /\
    Windows.VirtualAddress s <> 0 /\
    Windows.section_start lp64 65536 s <> 0 /\
    Windows.strncmp (Windows.c_str ".sw5test") (Windows.Name s) 8 = 0 /\
    2 * sizeof_uintptr lp64
    < Z.min (Windows.VirtualSize s) (Windows.SizeOfRawData s) /\
    {| imageAddress := 65536; start := 73736; size := 40 |}
    = {| imageAddress := 65536;
         start := wrap lp64 (Windows.section_start lp64 65536 s + sizeof_uintptr lp64);
         size := wrap lp64 (Z.min (Windows.VirtualSize s) (Windows.SizeOfRawData s)
                            - 2 * sizeof_uintptr lp64) |}.
Proof.
  refine (@findSection_sound lp64 zero_memory IMAGE_DOS_SIGNATURE
            IMAGE_NT_SIGNATURE IMAGE_SIZEOF_SHORT_NAME swift_module
            (Windows.c_str ".sw5test")
            {| imageAddress := 65536; start := 73736; size := 40 |} _).
  reflexivity.
Defined.

Lemma debug_findSection_asserts_witness :
  Windows.findSection lp64_debug zero_memory IMAGE_DOS_SIGNATURE
    IMAGE_NT_SIGNATURE IMAGE_SIZEOF_SHORT_NAME short_module
    (Windows.c_str ".sw5test")
  = AssertFailed.
Proof.
  refine (@debug_findSection_asserts lp64_debug zero_memory IMAGE_DOS_SIGNATURE
            IMAGE_NT_SIGNATURE IMAGE_SIZEOF_SHORT_NAME short_module
            (Windows.c_str ".sw5test") [text_section] [] short_sw5test_section
            _ _ _ _ _ _ _ _); try concretely.
  left. concretely.
Defined.

Lemma only_first_1024_modules_examined_witness :
  Windows.enumerateTestContentSections lp64 zero_memory IMAGE_DOS_SIGNATURE
    IMAGE_NT_SIGNATURE IMAGE_SIZEOF_SHORT_NAME record_bounds
    (Some (repeat broken_module 1024 ++ [swift_module])) []
  = Windows.enumerateTestContentSections lp64 zero_memory IMAGE_DOS_SIGNATURE
      IMAGE_NT_SIGNATURE IMAGE_SIZEOF_SHORT_NAME record_bounds
      (Some (repeat broken_module 1024)) [].
Proof.
  refine (proj1 (@only_first_1024_modules_examined lp64 zero_memory
                   IMAGE_DOS_SIGNATURE IMAGE_NT_SIGNATURE IMAGE_SIZEOF_SHORT_NAME
                   (repeat broken_module 1024) [swift_module] _ record_bounds [] _)).
  apply repeat_length.
Defined.

Lemma short_section_read_past_end_witness :
  walkSection lp64 (restrict zero_memory 4096 (4096 + 6)) 0 count_calls 1
    {| imageAddress := 256; start := 4096; size := 6 |} false 0%nat
  = Fault 4102.
Proof.
  refine (@short_section_read_past_end lp64 zero_memory nat 0 count_calls
            0 {| imageAddress := 256; start := 4096; size := 6 |}
            false 0%nat _ _ _ _); concretely.
Defined.

End MoreInstances.
